(** * The parallel-render audio compositor of revideo's ffmpeg exporter

    A shallow embedding of [getAssetPlacement], [calculateAtempoFilters],
    [prepareAudio], [mergeAudioTracks], [generateAudio] and [mergeMedia]
    (the audio part of the ffmpeg package), and the properties the
    specification states about them.

    Conventions of the embedding:
    - a JavaScript [number] is a value of [num]: an exact rational, one of
      the two infinities, or NaN.  Rounding and the sign of zero are not
      modelled; everything else (division by zero, comparisons with NaN,
      [Math.min] and [Math.max]) follows IEEE 754 as JavaScript does;
    - frame indices are integers ([Z]);
    - a [Map<string, _>] is a [gmap string _];
    - the filter strings handed to the transcoding engine are kept as a list
      of typed stages ([filter]), in the order in which the source pushes
      them, and are only serialised at the boundary;
    - the file system and the external engine are explicit: a [world] holds
      the regular files and the trace of the effects performed, and the
      engine, the probes and the directory helpers are parameters. *)

From Stdlib Require Import QArith Qcanon Qround ZArith Lia Lqa Ascii String.
From Stdlib Require Strings.Byte.
From stdpp Require Import base numbers option list gmap strings sorting.

Local Open Scope Z_scope.

(** ** JavaScript numbers *)

Module Num.

Inductive num : Type :=
  | Fin (q : Qc)
  | PInf
  | NInf
  | NaN.

#[global] Instance num_eq_dec : EqDecision num.
Proof. solve_decision. Defined.

Definition qc (n d : Z) : Qc := Q2Qc (Qmake n (Z.to_pos d)).
Definition ofZ (z : Z) : num := Fin (Q2Qc (inject_Z z)).
Definition dec (n d : Z) : num := Fin (qc n d).

Definition zero : num := ofZ 0.
Definition one : num := ofZ 1.

Definition qpos (q : Qc) : bool := bool_decide (0 < q)%Qc.
Definition qneg (q : Qc) : bool := bool_decide (q < 0)%Qc.

Definition neg (a : num) : num :=
  match a with
  | Fin q => Fin (- q)%Qc
  | PInf => NInf
  | NInf => PInf
  | NaN => NaN
  end.

Definition add (a b : num) : num :=
  match a, b with
  | NaN, _ | _, NaN => NaN
  | Fin x, Fin y => Fin (x + y)%Qc
  | PInf, NInf | NInf, PInf => NaN
  | PInf, _ | _, PInf => PInf
  | NInf, _ | _, NInf => NInf
  end.

Definition sub (a b : num) : num := add a (neg b).

(** The infinity whose sign is that of [q]; NaN when [q] is zero. *)
Definition inf_signed (q : Qc) (positive : num) : num :=
  if qpos q then positive else if qneg q then neg positive else NaN.

Definition mul (a b : num) : num :=
  match a, b with
  | NaN, _ | _, NaN => NaN
  | Fin x, Fin y => Fin (x * y)%Qc
  | Fin x, PInf | PInf, Fin x => inf_signed x PInf
  | Fin x, NInf | NInf, Fin x => inf_signed x NInf
  | PInf, PInf | NInf, NInf => PInf
  | PInf, NInf | NInf, PInf => NInf
  end.

(** [a / b].  A finite non-zero number over zero is an infinity, zero over
    zero is NaN, a finite number over an infinity is zero. *)
Definition div (a b : num) : num :=
  match a, b with
  | NaN, _ | _, NaN => NaN
  | Fin x, Fin y =>
      if bool_decide (y = 0%Qc) then inf_signed x PInf else Fin (x / y)%Qc
  | Fin _, (PInf | NInf) => zero
  | PInf, Fin y => if qneg y then NInf else PInf
  | NInf, Fin y => if qneg y then PInf else NInf
  | (PInf | NInf), (PInf | NInf) => NaN
  end.

(** [a < b]; false as soon as one side is NaN. *)
Definition ltb (a b : num) : bool :=
  match a, b with
  | NaN, _ | _, NaN => false
  | Fin x, Fin y => bool_decide (x < y)%Qc
  | NInf, (Fin _ | PInf) => true
  | Fin _, PInf => true
  | _, _ => false
  end.

Definition gtb (a b : num) : bool := ltb b a.

(** [a >= b] *)
Definition geb (a b : num) : bool :=
  match a, b with
  | NaN, _ | _, NaN => false
  | _, _ => negb (ltb a b)
  end.

(** [a === b] on numbers: NaN is different from itself. *)
Definition eqb (a b : num) : bool :=
  match a, b with
  | NaN, _ | _, NaN => false
  | _, _ => bool_decide (a = b)
  end.

(** [a !== b] *)
Definition neqb (a b : num) : bool := negb (eqb a b).

Definition abs (a : num) : num :=
  match a with
  | Fin q => if qneg q then Fin (- q)%Qc else Fin q
  | PInf | NInf => PInf
  | NaN => NaN
  end.

(** [Math.min(a, b)] and [Math.max(a, b)]: NaN when an argument is NaN. *)
Definition min (a b : num) : num :=
  match a, b with
  | NaN, _ | _, NaN => NaN
  | _, _ => if ltb b a then b else a
  end.

Definition max (a b : num) : num :=
  match a, b with
  | NaN, _ | _, NaN => NaN
  | _, _ => if ltb a b then b else a
  end.

(** [Math.ceil(a)] *)
Definition ceil (a : num) : num :=
  match a with
  | Fin q => ofZ (Qceiling q)
  | _ => a
  end.

End Num.

Export Num.

Declare Scope num_scope.
Delimit Scope num_scope with num.
Bind Scope num_scope with num.
Infix "+" := Num.add : num_scope.
Infix "-" := Num.sub : num_scope.
Infix "*" := Num.mul : num_scope.
Infix "/" := Num.div : num_scope.
Infix "<?" := Num.ltb : num_scope.
Infix ">?" := Num.gtb : num_scope.
Infix ">=?" := Num.geb : num_scope.
Infix "=?" := Num.eqb : num_scope.
Infix "!=?" := Num.neqb (at level 70, no associativity) : num_scope.

(** ** The filter chain *)

(** One stage of the [-af] chain.  The constructors follow the format
    strings of [calculateAtempoFilters] and [prepareAudio]:
    - [Aloop n]            [aloop=loop=n:size=2e+09]
    - [Atempo r]           [atempo=r]
    - [Atrim s e]          [atrim=start=s:end=e]
    - [Apad n]             [apad=pad_len=n]
    - [Adelay ms]          [adelay=ms|ms|ms]
    - [Volume v]           [volume=v]
    - [AfadeOut st d]      [afade=t=out:st=st:d=d:curve=qsin]
    - [AfadeIn st d]       [afade=t=in:st=st:d=d:curve=tri]
    - [VolumeRamp st e v2 d]
        [volume='if(lt(t,st),1,if(gt(t,e),v2,1+(v2-1)*(t-st)/d))':eval=frame] *)
Inductive filter : Type :=
  | Aloop (loopCount : num)
  | Atempo (rate : num)
  | Atrim (start stop : num)
  | Apad (pad_len : num)
  | Adelay (ms : num)
  | Volume (v : num)
  | AfadeOut (st d : num)
  | AfadeIn (st d : num)
  | VolumeRamp (st stop v2 d : num).

#[global] Instance filter_eq_dec : EqDecision filter.
Proof. solve_decision. Defined.

(** ** [calculateAtempoFilters] *)

(** [while (rate > 100.0) { push('atempo=100.0'); rate /= 100.0; }]
    The loop is run with a bound on its iterations; [None] means that the
    bound was reached before the condition became false. *)
Fixpoint atempo_speed_up (fuel : nat) (rate : num) (atempoFilters : list filter)
  : option (num * list filter) :=
  match fuel with
  | O => None
  | S fuel' =>
      if (rate >? ofZ 100)%num
      then atempo_speed_up fuel' (rate / ofZ 100)%num
             (atempoFilters ++ [Atempo (ofZ 100)])
      else Some (rate, atempoFilters)
  end.

(** [while (rate < 0.5) { push('atempo=0.5'); rate *= 2.0; }] *)
Fixpoint atempo_slow_down (fuel : nat) (rate : num) (atempoFilters : list filter)
  : option (num * list filter) :=
  match fuel with
  | O => None
  | S fuel' =>
      if (rate <? dec 1 2)%num
      then atempo_slow_down fuel' (rate * ofZ 2)%num
             (atempoFilters ++ [Atempo (dec 1 2)])
      else Some (rate, atempoFilters)
  end.

Definition calculateAtempoFilters_fuel (fuel : nat) (playbackRate : num)
  : option (list filter) :=
  '(rate, atempoFilters) ← atempo_speed_up fuel playbackRate [];
  let atempoFilters :=
    if (rate >? one)%num then atempoFilters ++ [Atempo rate] else atempoFilters in
  '(rate, atempoFilters) ← atempo_slow_down fuel playbackRate atempoFilters;
  let atempoFilters :=
    if (rate <? one)%num then atempoFilters ++ [Atempo rate] else atempoFilters in
  Some atempoFilters.

(** A number of iterations that is enough for both loops on a positive finite
    rate: the first loop divides by 100 while the rate exceeds 100, the second
    doubles while the rate is below one half. *)
Definition atempo_fuel (playbackRate : num) : nat :=
  match playbackRate with
  | Fin q => S (Z.to_nat (Qceiling q) + Z.to_nat (Qceiling (/ q)%Qc))
  | _ => 1
  end.

(** [calculateAtempoFilters(playbackRate)]; [None] when the condition of a
    loop of the source never becomes false (see
    [calculateAtempoFilters_diverges]): the array of stages then grows with
    every iteration until [push] throws [RangeError: Invalid array length],
    and this exception is how the call ends. *)
Definition calculateAtempoFilters (playbackRate : num) : option (list filter) :=
  calculateAtempoFilters_fuel (atempo_fuel playbackRate) playbackRate.

(** The factor of one tempo stage, and the product of a chain. *)
Definition stage_factor (f : filter) : num :=
  match f with
  | Atempo r => r
  | _ => one
  end.

Definition chain_product (fs : list filter) : num :=
  foldr (fun f acc => (stage_factor f * acc)%num) one fs.

(** A stage the engine accepts: [0.5 <= r <= 100]. *)
Definition valid_stage (f : filter) : Prop :=
  exists q : Qc, f = Atempo (Fin q) /\ (qc 1 2 <= q)%Qc /\ (q <= qc 100 1)%Qc.

(** ** The data model *)

Inductive asset_type : Type := video | audio.

#[global] Instance asset_type_eq_dec : EqDecision asset_type.
Proof. solve_decision. Defined.

(** [AssetInfo]: what the renderer samples for one active asset of one
    frame.  The interface is declared in the core package; these are the
    fields that the audio code reads.  [loop] is optional. *)
Record AssetInfo : Type := mkAssetInfo {
  ai_key : string;
  ai_src : string;
  ai_type : asset_type;
  ai_currentTime : num;
  ai_playbackRate : num;
  ai_volume : num;
  ai_loop : option bool;
}.

(** One breakpoint [[frameOffset, volume]] of [volumeChanges]. *)
Definition breakpoint : Type := Z * num.

(** [MediaAsset] *)
Record MediaAsset : Type := mkMediaAsset {
  key : string;
  src : string;
  type : asset_type;
  startInVideo : Z;
  endInVideo : Z;
  duration : Z;
  playbackRate : num;
  volume : num;
  trimLeftInSeconds : num;
  durationInSeconds : num;
  loop : option bool;
  volumeChanges : option (list breakpoint);
}.

Definition set_endInVideo (frame : Z) (a : MediaAsset) : MediaAsset :=
  mkMediaAsset (key a) (src a) (type a) (startInVideo a) frame (duration a)
    (playbackRate a) (volume a) (trimLeftInSeconds a) (durationInSeconds a)
    (loop a) (volumeChanges a).

Definition set_volumeChanges (vc : list breakpoint) (a : MediaAsset) : MediaAsset :=
  mkMediaAsset (key a) (src a) (type a) (startInVideo a) (endInVideo a)
    (duration a) (playbackRate a) (volume a) (trimLeftInSeconds a)
    (durationInSeconds a) (loop a) (Some vc).

Definition set_duration (d : Z) (a : MediaAsset) : MediaAsset :=
  mkMediaAsset (key a) (src a) (type a) (startInVideo a) (endInVideo a) d
    (playbackRate a) (volume a) (trimLeftInSeconds a) (durationInSeconds a)
    (loop a) (volumeChanges a).

Definition set_durationInSeconds (d : num) (a : MediaAsset) : MediaAsset :=
  mkMediaAsset (key a) (src a) (type a) (startInVideo a) (endInVideo a)
    (duration a) (playbackRate a) (volume a) (trimLeftInSeconds a) d
    (loop a) (volumeChanges a).

(** ** [getAssetPlacement] *)

(** The local state of the scan: the [assets] array and the three maps. *)
Record placement : Type := mkPlacement {
  assets : list MediaAsset;
  assetTimeMap : gmap string (num * num);   (* {start, end} *)
  assetLoopMap : gmap string bool;
  assetVolumeMap : gmap string (list breakpoint);
}.

Definition placement_empty : placement := mkPlacement [] ∅ ∅ ∅.

(** [assets.find(a => a.key === k)] followed by an assignment to a field of
    the element found: the first element with that key is updated in place. *)
Fixpoint update_first (k : string) (f : MediaAsset -> MediaAsset)
    (l : list MediaAsset) : list MediaAsset :=
  match l with
  | [] => []
  | a :: l' => if bool_decide (key a = k) then f a :: l' else a :: update_first k f l'
  end.

Definition find_asset (k : string) (l : list MediaAsset) : option MediaAsset :=
  List.find (fun a => bool_decide (key a = k)) l.

(** [volumeChanges[volumeChanges.length - 1][1]].  Every array of
    [assetVolumeMap] is created with one breakpoint and only grows (lemma
    [assetVolumeMap_nonempty]), so the default is never read. *)
Definition last_volume (vc : list breakpoint) : num :=
  snd (List.last vc (0, NaN)).

(** The body of the inner loop, for one sample [asset] of frame [frame]. *)
Definition place_sample (frame : Z) (st : placement) (asset : AssetInfo) : placement :=
  let k := ai_key asset in
  match assetTimeMap st !! k with
  | None =>
      mkPlacement
        (assets st ++
           [mkMediaAsset k (ai_src asset) (ai_type asset) frame frame 0
              (ai_playbackRate asset) (ai_volume asset) (ai_currentTime asset)
              zero (ai_loop asset) None])
        (<[k := (ai_currentTime asset, ai_currentTime asset)]> (assetTimeMap st))
        (<[k := default false (ai_loop asset)]> (assetLoopMap st))
        (<[k := [(0, ai_volume asset)]]> (assetVolumeMap st))
  | Some timeInfo =>
      let times := <[k := (fst timeInfo, ai_currentTime asset)]> (assetTimeMap st) in
      match find_asset k (assets st) with
      | None => mkPlacement (assets st) times (assetLoopMap st) (assetVolumeMap st)
      | Some existingAsset =>
          let assets' := update_first k (set_endInVideo frame) (assets st) in
          match assetVolumeMap st !! k with
          | None => mkPlacement assets' times (assetLoopMap st) (assetVolumeMap st)
          | Some volumeChanges =>
              let frameOffset := frame - startInVideo existingAsset in
              let lastVolume := last_volume volumeChanges in
              if (abs (ai_volume asset - lastVolume) >? dec 1 1000)%num
              then mkPlacement assets' times (assetLoopMap st)
                     (<[k := volumeChanges ++ [(frameOffset, ai_volume asset)]]>
                        (assetVolumeMap st))
              else mkPlacement assets' times (assetLoopMap st) (assetVolumeMap st)
          end
      end
  end.

(** [for (const asset of frames[frame])] *)
Definition place_frame (frame : Z) (st : placement) (samples : list AssetInfo)
  : placement :=
  foldl (place_sample frame) st samples.

(** [for (let frame = 0; frame < frames.length; frame++)], from [frame] on. *)
Fixpoint place_frames (frame : Z) (st : placement) (frames : list (list AssetInfo))
  : placement :=
  match frames with
  | [] => st
  | samples :: frames' => place_frames (frame + 1) (place_frame frame st samples) frames'
  end.

(** First [forEach]: attach the envelope when it has more than one breakpoint. *)
Definition attach_volumeChanges (st : placement) (asset : MediaAsset) : MediaAsset :=
  match assetVolumeMap st !! key asset with
  | Some volumeChanges =>
      if bool_decide (1 < Z.of_nat (length volumeChanges))
      then set_volumeChanges volumeChanges asset
      else asset
  | None => asset
  end.

(** Second [forEach]: the frame-based duration and [durationInSeconds]. *)
Definition compute_durations (st : placement) (asset : MediaAsset) : MediaAsset :=
  let timeInfo := assetTimeMap st !! key asset in
  let isLooping := default false (assetLoopMap st !! key asset) in
  let asset := set_duration (endInVideo asset - startInVideo asset + 1) asset in
  let asset :=
    match timeInfo with
    | Some (t_start, t_end) =>
        if isLooping
        then set_durationInSeconds PInf asset
        else set_durationInSeconds ((t_end - t_start) / playbackRate asset)%num asset
    | None => asset
    end in
  if (durationInSeconds asset =? zero)%num && bool_decide (1 < duration asset)
  then set_durationInSeconds PInf asset
  else asset.

Definition getAssetPlacement (frames : list (list AssetInfo)) : list MediaAsset :=
  let st := place_frames 0 placement_empty frames in
  compute_durations st <$> (attach_volumeChanges st <$> assets st).

(** The first sample of the asset [k] in frame order. *)
Definition first_sample (k : string) (frames : list (list AssetInfo))
  : option AssetInfo :=
  List.find (fun s => bool_decide (ai_key s = k)) (concat frames).

(** ** [prepareAudio]: the numbers and the filter chain *)

(** [asset.loop && asset.durationInSeconds === Infinity] *)
Definition needsLooping (asset : MediaAsset) : bool :=
  bool_decide (loop asset = Some true) && (durationInSeconds asset =? PInf)%num.

Definition trimLeft (asset : MediaAsset) : num :=
  (trimLeftInSeconds asset / playbackRate asset)%num.

Definition requiredDurationInSeconds (startFrame endFrame : Z) (fps : num) : num :=
  (ofZ (endFrame - startFrame) / fps)%num.

Definition trimRight (asset : MediaAsset) (startFrame endFrame : Z) (fps : num) : num :=
  (one / fps +
   min (trimLeft asset + durationInSeconds asset)
       (trimLeft asset + requiredDurationInSeconds startFrame endFrame fps))%num.

Definition padStart (asset : MediaAsset) (fps : num) : num :=
  (ofZ (startInVideo asset) / fps * ofZ 1000)%num.

Definition padEnd (asset : MediaAsset) (startFrame endFrame : Z) (fps : num)
    (assetSampleRate : num) : num :=
  max zero
    (assetSampleRate * ofZ (endFrame - startFrame + 1) / fps
     - assetSampleRate * ofZ (duration asset) / fps
     - assetSampleRate * padStart asset fps / ofZ 1000)%num.

Definition loopCount (asset : MediaAsset) (startFrame endFrame : Z) (fps : num) : num :=
  let totalDurationNeeded :=
    (trimLeft asset + requiredDurationInSeconds startFrame endFrame fps + ofZ 5)%num in
  let estimatedAudioLength := ofZ 10 in
  (ceil (totalDurationNeeded / estimatedAudioLength) + ofZ 2)%num.

(** The stages pushed by the [if (asset.volumeChanges && ...length > 1)]
    statement.  The pattern [c0 :: c1 :: _] is the test on the length;
    under it the source reads [volumeChanges[0]], [volumeChanges[1]]
    (its [fadeStartFrame]; the other arm of that conditional cannot be taken
    here) and the last element. *)
Definition volume_filters (asset : MediaAsset) (fps : num) : list filter :=
  match volumeChanges asset with
  | Some ((c0 :: c1 :: _) as changes) =>
      let firstVolume := snd c0 in
      let lastChange := List.last changes c0 in
      let lastVolume := snd lastChange in
      let fadeStartFrame := fst c1 in
      let fadeStartTimeInVideo := (ofZ fadeStartFrame / fps)%num in
      let fadeDuration := (ofZ (fst lastChange - fadeStartFrame) / fps)%num in
      let audioFilters := [Volume firstVolume] in
      if (lastVolume <? firstVolume)%num && (fadeDuration >? zero)%num then
        let fadeStartInStream :=
          (padStart asset fps / ofZ 1000 + fadeStartTimeInVideo)%num in
        if (lastVolume <? dec 5 100)%num then
          audioFilters ++ [AfadeOut fadeStartInStream fadeDuration]
        else
          let v2 := (lastVolume / firstVolume)%num in
          audioFilters ++
            [VolumeRamp fadeStartInStream (fadeStartInStream + fadeDuration)%num
               v2 fadeDuration]
      else if (lastVolume >? firstVolume)%num && (fadeDuration >? zero)%num then
        let fadeStartInStream :=
          (padStart asset fps / ofZ 1000 + fadeStartTimeInVideo)%num in
        audioFilters ++ [AfadeIn fadeStartInStream fadeDuration]
      else audioFilters
  | _ => [Volume (volume asset)]
  end.

(** The array [audioFilters] at the point where it is joined into the
    [-af] option, built by the same pushes in the same order. *)
Definition audioFilters (asset : MediaAsset) (startFrame endFrame : Z) (fps : num)
    (assetSampleRate : num) (atempoFilters : list filter) : list filter :=
  let fs := [] in
  let fs :=
    if needsLooping asset
    then fs ++ [Aloop (loopCount asset startFrame endFrame fps)]
    else fs in
  let fs := fs ++ atempoFilters in
  let fs := fs ++ [Atrim (trimLeft asset) (trimRight asset startFrame endFrame fps)] in
  let fs := fs ++ [Apad (padEnd asset startFrame endFrame fps assetSampleRate)] in
  let fs := fs ++ [Adelay (padStart asset fps)] in
  fs ++ volume_filters asset fps.

(** The role of a stage in the chain. *)
Inductive stage_kind : Type :=
  | Looping | Tempo | Trim | PadStart | PadEnd | VolumeShaping.

#[global] Instance stage_kind_eq_dec : EqDecision stage_kind.
Proof. solve_decision. Defined.

Definition kind_of (f : filter) : stage_kind :=
  match f with
  | Aloop _ => Looping
  | Atempo _ => Tempo
  | Atrim _ _ => Trim
  | Adelay _ => PadStart
  | Apad _ => PadEnd
  | Volume _ | AfadeOut _ _ | AfadeIn _ _ | VolumeRamp _ _ _ _ => VolumeShaping
  end.

(** The position of a kind in the order that the specification lists:
    looping, tempo, trim, pad start, pad end, volume shaping. *)
Definition spec_rank (k : stage_kind) : nat :=
  match k with
  | Looping => 0 | Tempo => 1 | Trim => 2 | PadStart => 3 | PadEnd => 4
  | VolumeShaping => 5
  end.

(** The position of a kind in the order in which the source pushes:
    looping, tempo, trim, pad end, pad start, volume shaping. *)
Definition code_rank (k : stage_kind) : nat :=
  match k with
  | Looping => 0 | Tempo => 1 | Trim => 2 | PadEnd => 3 | PadStart => 4
  | VolumeShaping => 5
  end.

(** A chain follows an order when the ranks of its stages never decrease. *)
Fixpoint ordered_by (rank : stage_kind -> nat) (fs : list filter) : Prop :=
  match fs with
  | [] => True
  | f :: fs' =>
      Forall (fun g => (rank (kind_of f) <= rank (kind_of g))%nat) fs' /\
      ordered_by rank fs'
  end.

(** The index of the first stage of a kind. *)
Fixpoint index_of (k : stage_kind) (fs : list filter) : option nat :=
  match fs with
  | [] => None
  | f :: fs' => if bool_decide (kind_of f = k) then Some O else S <$> index_of k fs'
  end.

(** [k1] occurs in the chain, [k2] occurs, and the first [k1] comes first. *)
Definition precedes (k1 k2 : stage_kind) (fs : list filter) : Prop :=
  match index_of k1 fs, index_of k2 fs with
  | Some i, Some j => (i < j)%nat
  | _, _ => False
  end.

Definition is_fade_out (f : filter) : bool :=
  match f with AfadeOut _ _ => true | _ => false end.

(** ** Strings and paths *)

(** [key.replace(/[/[\]]/g, '-')]: every slash and every square bracket
    becomes a dash. *)
Definition sanitize_char (c : ascii) : ascii :=
  if bool_decide (c = "/"%char) || bool_decide (c = "["%char)
     || bool_decide (c = "]"%char)
  then "-"%char else c.

Fixpoint sanitize (s : string) : string :=
  match s with
  | EmptyString => EmptyString
  | String c s' => String (sanitize_char c) (sanitize s')
  end.

(** [path.join(a, b)] on POSIX, for segments that are already normalised:
    no [.], [..] or doubled separator is resolved. *)
Definition path_join (a b : string) : string := a +:+ "/" +:+ b.

(** [s.startsWith(p)] and [s.endsWith(p)] *)
Fixpoint starts_with (p s : string) : bool :=
  match p, s with
  | EmptyString, _ => true
  | String a p', String b s' => bool_decide (a = b) && starts_with p' s'
  | String _ _, EmptyString => false
  end.

Definition ends_with (p s : string) : bool :=
  starts_with (String.rev p) (String.rev s).

(** ** The world: files and effects *)

Definition content : Type := list Byte.byte.

Inductive format : Type := mp4 | webm | proRes.
Inductive AudioCodec : Type := aac | libopus.

#[global] Instance AudioCodec_eq_dec : EqDecision AudioCodec.
Proof. solve_decision. Defined.

Definition audioCodecs (f : format) : AudioCodec :=
  match f with
  | mp4 => aac
  | webm => libopus
  | proRes => aac
  end.

(** One invocation of the transcoding engine.
    - [Synthesize input filters output]: the command of [prepareAudio],
      [ffmpeg(input) ... outputOptions(['-af', filters.join(',')]).save(output)];
    - [Mix inputs output]: the command of [mergeAudioTracks], with
      [amix=inputs=n:duration=longest:normalize=0];
    - [Mux audio video output codec]: the call of [mergeAudioWithVideo]. *)
Inductive command : Type :=
  | Synthesize (input : string) (filters : list filter) (output : string)
  | Mix (inputs : list string) (output : string)
  | Mux (audioPath videoPath output : string) (codec : AudioCodec).

#[global] Instance command_eq_dec : EqDecision command.
Proof. solve_decision. Defined.

(** What the code does to the outside, in order. *)
Inductive effect : Type :=
  | Run (c : command)
  | CopyFile (source destination : string)
  | Rm (directory : string).

#[global] Instance effect_eq_dec : EqDecision effect.
Proof. solve_decision. Defined.

Record world : Type := mkWorld {
  files : gmap string content;
  trace : list effect;
}.

(** How one run of the engine ends: the event it fires ([None] for [end],
    [Some err] for [error]) and the bytes it leaves at its output path, if
    it writes the file at all. *)
Record engine_outcome : Type := mkOutcome {
  reported : option string;
  produced : option content;
}.

(** How a promise settles. [Pending] is a promise that never settles. *)
Inductive settled (A : Type) : Type :=
  | Resolved (a : A)
  | Rejected (err : string)
  | Pending.
Arguments Resolved {A} a.
Arguments Rejected {A} err.
Arguments Pending {A}.

(** What lies outside this module: the engine, the two probes and the
    helpers of [utils], the table [extensions], and [os.tmpdir()]. *)
Record environment : Type := mkEnvironment {
  engine : command -> gmap string content -> engine_outcome;
  getSampleRate : string -> settled num;
  checkForAudioStream : string -> settled bool;
  makeSureFolderExists : string -> settled unit;
  resolvePath : string -> string -> string;
  rm_error : string -> gmap string content -> option string;
  extensions : format -> string;
  tmpdir : string;
}.

(** An [async] computation: it reads and changes the world and settles. *)
Definition async (A : Type) : Type := world -> settled A * world.

Definition ret {A : Type} (a : A) : async A := fun w => (Resolved a, w).

(** [await] followed by the rest of the function. *)
Definition bind {A B : Type} (m : async A) (k : A -> async B) : async B :=
  fun w =>
    match m w with
    | (Resolved a, w') => k a w'
    | (Rejected err, w') => (Rejected err, w')
    | (Pending, w') => (Pending, w')
    end.

Definition await {A : Type} (p : settled A) : async A := fun w => (p, w).

Declare Scope async_scope.
Delimit Scope async_scope with async.
Notation "x <- m ;; k" := (bind m (fun x => k))
  (at level 100, m at next level, right associativity) : async_scope.
Notation "m ;;; k" := (bind m (fun _ => k))
  (at level 100, right associativity) : async_scope.
Local Open Scope async_scope.

(** The file at [path] after the engine has run. *)
Definition write_output (path : string) (bytes : option content)
    (fs : gmap string content) : gmap string content :=
  match bytes with
  | Some c => <[path := c]> fs
  | None => fs
  end.

Definition command_output (c : command) : string :=
  match c with
  | Synthesize _ _ output | Mix _ output | Mux _ _ output _ => output
  end.

(** One subprocess of the engine, wrapped in a promise that resolves on
    [end] and rejects on [error]. *)
Definition run_engine (E : environment) (c : command) : async unit :=
  fun w =>
    let o := engine E c (files w) in
    let w' := mkWorld (write_output (command_output c) (produced o) (files w))
                      (trace w ++ [Run c]) in
    match reported o with
    | None => (Resolved tt, w')
    | Some err => (Rejected err, w')
    end.

(** [fs.existsSync(path)] *)
Definition existsSync (path : string) (w : world) : bool :=
  bool_decide (is_Some (files w !! path)).

(** [fs.promises.copyFile(source, destination)].  Of the ways in which the
    copy can fail, a source that does not exist is the one that is
    modelled. *)
Definition copyFile (source destination : string) : async unit :=
  fun w =>
    let w' := mkWorld (files w) (trace w ++ [CopyFile source destination]) in
    match files w !! source with
    | Some c => (Resolved tt, mkWorld (<[destination := c]> (files w)) (trace w'))
    | None => (Rejected "ENOENT", w')
    end.

Definition inside (directory path : string) : bool :=
  bool_decide (path = directory) || starts_with (directory +:+ "/") path.

(** [fs.promises.rm(directory, {recursive: true, force: true})] *)
Definition rm (E : environment) (directory : string) : async unit :=
  fun w =>
    let tr := trace w ++ [Rm directory] in
    match rm_error E directory (files w) with
    | None =>
        (Resolved tt,
         mkWorld (base.filter (fun kv => inside directory kv.1 = false) (files w)) tr)
    | Some err => (Rejected err, mkWorld (files w) tr)
    end.

(** [promise.catch(() => {})] *)
Definition catch_ignore (m : async unit) : async unit :=
  fun w =>
    match m w with
    | (Rejected _, w') => (Resolved tt, w')
    | r => r
    end.

(** ** [prepareAudio], [mergeAudioTracks], [generateAudio], [mergeMedia] *)

Definition outputPath (tempDir : string) (asset : MediaAsset) : string :=
  let sanitizedKey := sanitize (key asset) in
  path_join tempDir (sanitizedKey +:+ ".wav").

(** The message of the exception that [Array.prototype.push] throws on an
    array that is full. *)
Definition array_overflow : string := "RangeError: Invalid array length".

Definition prepareAudio (E : environment) (outputDir tempDir : string)
    (asset : MediaAsset) (startFrame endFrame : Z) (fps : num) : async string :=
  let outputPath := outputPath tempDir asset in
  assetSampleRate <- await (getSampleRate E (resolvePath E outputDir (src asset)));;
  (* an exception thrown by [calculateAtempoFilters] rejects the promise of
     [prepareAudio] *)
  atempoFilters <-
    await (match calculateAtempoFilters (playbackRate asset) with
           | Some fs => Resolved fs
           | None => Rejected array_overflow
           end);;
  let resolvedPath := resolvePath E outputDir (src asset) in
  run_engine E
    (Synthesize resolvedPath
       (audioFilters asset startFrame endFrame fps assetSampleRate atempoFilters)
       outputPath);;;
  ret outputPath.

Definition mergeAudioTracks (E : environment) (tempDir : string)
    (audioFilenames : list string) : async unit :=
  run_engine E (Mix audioFilenames (path_join tempDir "audio.wav")).

(** The body of the [for (const asset of assetPositions)] loop. *)
Definition generateAudio_asset (E : environment) (outputDir fullTempDir : string)
    (startFrame endFrame : Z) (fps : num)
    (audioFilenames : list string) (asset : MediaAsset) : async (list string) :=
  hasAudioStream <-
    (if bool_decide (type asset <> audio)
     then await (checkForAudioStream E (resolvePath E outputDir (src asset)))
     else ret true);;
  if (playbackRate asset !=? zero)%num && (volume asset !=? zero)%num
     && hasAudioStream
  then
    filename <- prepareAudio E outputDir fullTempDir asset startFrame endFrame fps;;
    ret (audioFilenames ++ [filename])
  else ret audioFilenames.

Fixpoint generateAudio_loop (E : environment) (outputDir fullTempDir : string)
    (startFrame endFrame : Z) (fps : num)
    (audioFilenames : list string) (assetPositions : list MediaAsset)
  : async (list string) :=
  match assetPositions with
  | [] => ret audioFilenames
  | asset :: rest =>
      audioFilenames <-
        generateAudio_asset E outputDir fullTempDir startFrame endFrame fps
          audioFilenames asset;;
      generateAudio_loop E outputDir fullTempDir startFrame endFrame fps
        audioFilenames rest
  end.

Definition generateAudio (E : environment) (outputDir tempDir : string)
    (assets : list (list AssetInfo)) (startFrame endFrame : Z) (fps : num)
  : async (list string) :=
  let fullTempDir := path_join (tmpdir E) tempDir in
  await (makeSureFolderExists E outputDir);;;
  await (makeSureFolderExists E fullTempDir);;;
  let assetPositions := getAssetPlacement assets in
  audioFilenames <-
    generateAudio_loop E outputDir fullTempDir startFrame endFrame fps []
      assetPositions;;
  (if bool_decide (0 < length audioFilenames)%nat
   then mergeAudioTracks E fullTempDir audioFilenames
   else ret tt);;;
  ret audioFilenames.

(** Modelled from the spec: [mergeAudioWithVideo] is a helper of [utils],
    which is not part of the sources at hand.  Section 4.4 describes it: the
    mixed track is muxed with the rendered visual container into the final
    output file, with the audio codec of the format; that is one run of the
    engine. *)
Definition mergeAudioWithVideo (E : environment)
    (audioPath videoPath output : string) (codec : AudioCodec) : async unit :=
  run_engine E (Mux audioPath videoPath output codec).

(** The part of [mergeMedia] before the cleanup of the temporary directory. *)
Definition mergeMedia_merge (E : environment) (outputFilename outputDir : string)
    (fullTempDir : string) (fmt : format) : async unit :=
  fun w =>
    let audioWavExists := existsSync (path_join fullTempDir "audio.wav") w in
    if audioWavExists then
      mergeAudioWithVideo E
        (path_join fullTempDir "audio.wav")
        (path_join fullTempDir ("visuals." +:+ extensions E fmt))
        (path_join outputDir (outputFilename +:+ "." +:+ extensions E fmt))
        (audioCodecs fmt) w
    else
      let destination :=
        path_join outputDir (outputFilename +:+ "." +:+ extensions E fmt) in
      copyFile (path_join fullTempDir ("visuals." +:+ extensions E fmt))
        destination w.

(** The last statement of [mergeMedia]. *)
Definition mergeMedia_cleanup (E : environment) (fullTempDir : string) : async unit :=
  if ends_with "-undefined" fullTempDir
  then catch_ignore (rm E fullTempDir)
  else ret tt.

Definition mergeMedia (E : environment) (outputFilename outputDir tempDir : string)
    (fmt : format) : async unit :=
  let fullTempDir := path_join (tmpdir E) tempDir in
  await (makeSureFolderExists E outputDir);;;
  await (makeSureFolderExists E fullTempDir);;;
  mergeMedia_merge E outputFilename outputDir fullTempDir fmt;;;
  mergeMedia_cleanup E fullTempDir.

#[global] Instance AssetInfo_eq_dec : EqDecision AssetInfo.
Proof. solve_decision. Defined.

#[global] Instance MediaAsset_eq_dec : EqDecision MediaAsset.
Proof. solve_decision. Defined.

#[global] Instance byte_eq_dec : EqDecision Byte.byte := Strings.Byte.byte_eq_dec.

#[global] Instance world_eq_dec : EqDecision world.
Proof. solve_decision. Defined.

#[global] Instance settled_eq_dec {A : Type} `{EqDecision A} : EqDecision (settled A).
Proof. solve_decision. Defined.

(** ** Concrete inputs *)

(** The scenario of the specification: asset [A] sampled on frames 0, 1, 2. *)
Definition sampleA (t v : num) : AssetInfo :=
  mkAssetInfo "A" "a.mp3" audio t one v (Some false).

Definition scenario_frames : list (list AssetInfo) :=
  [ [sampleA zero one]; [sampleA (dec 33 1000) one]; [sampleA (dec 66 1000) zero] ].

(** The span that [getAssetPlacement] builds for [scenario_frames]. *)
Definition scenario_asset : MediaAsset :=
  mkMediaAsset "A" "a.mp3" audio 0 2 3 one one zero (dec 66 1000) (Some false)
    (Some [(0, one); (2, zero)]).

(** A looping, unbounded span at rate 1 with a static volume, used to
    exhibit the order of the chain. *)
Definition looping_asset : MediaAsset :=
  mkMediaAsset "music" "music.mp3" audio 0 29 30 one one zero PInf (Some true) None.

(** A span of thirty frames and one second at rate 1, trimmed at 2 s. *)
Definition plain_asset : MediaAsset :=
  mkMediaAsset "voice" "voice.mp3" audio 0 29 30 one one (ofZ 2) one (Some false) None.

(** A looping asset whose position wraps from 13.8 s to 0.1 s. *)
Definition loopSample (t : num) : AssetInfo :=
  mkAssetInfo "music" "music.mp3" audio t one one (Some true).

Definition wrapping_frames : list (list AssetInfo) :=
  [ [loopSample (dec 138 10)]; [loopSample (dec 1 10)]; [loopSample (dec 2 10)] ].

(** An asset that starts silent and is then raised to full volume. *)
Definition risingSample (t v : num) : AssetInfo :=
  mkAssetInfo "sfx" "sfx.mp3" audio t one v None.

Definition rising_frames : list (list AssetInfo) :=
  [ [risingSample zero zero]; [risingSample (dec 1 30) (dec 1 2)];
    [risingSample (dec 2 30) one] ].

Definition extensions_table (f : format) : string :=
  match f with
  | mp4 => "mp4"
  | webm => "webm"
  | proRes => "mov"
  end.

Definition riff : content :=
  [Byte.x52; Byte.x49; Byte.x46; Byte.x46].

(** Surroundings in which every probe and every helper succeeds, and every
    run of the engine fires [end] after writing [bytes] to its output;
    [rm] fails with [failure] when one is given. *)
Definition succeeding (bytes : content) (failure : option string) : environment :=
  mkEnvironment
    (fun _ _ => mkOutcome None (Some bytes))
    (fun _ => Resolved (ofZ 44100))
    (fun _ => Resolved true)
    (fun _ => Resolved tt)
    path_join
    (fun _ _ => failure)
    extensions_table
    "/tmp".

Definition empty_world : world := mkWorld ∅ [].

(** The span that [getAssetPlacement] builds for [rising_frames]. *)
Definition rising_asset : MediaAsset :=
  mkMediaAsset "sfx" "sfx.mp3" audio 0 2 3 one zero zero (dec 2 30) None
    (Some [(0, zero); (1, dec 1 2); (2, one)]).

(** An asset whose position is moved back between two frames, from 5 s to
    2 s, and the span that [getAssetPlacement] builds for it. *)
Definition rewindSample (t : num) : AssetInfo :=
  mkAssetInfo "clip" "clip.mp3" audio t one one (Some false).

Definition rewinding_frames : list (list AssetInfo) :=
  [ [rewindSample (ofZ 5)]; [rewindSample (ofZ 2)] ].

Definition rewinding_asset : MediaAsset :=
  mkMediaAsset "clip" "clip.mp3" audio 0 1 2 one one (ofZ 5) (ofZ (-3))
    (Some false) None.

(** A shard directory after rendering: the visual container only. *)
Definition rendered_world (tempDir : string) : world :=
  mkWorld {[ path_join (path_join "/tmp" tempDir) "visuals.mp4" := riff ]} [].

(** Surroundings whose engine writes, for a synthesis, the name of its input
    as the bytes of the output: two syntheses leave different bytes. *)
Definition echoing : environment :=
  mkEnvironment
    (fun c _ =>
       mkOutcome None
         (Some match c with
               | Synthesize input _ _ => list_byte_of_string input
               | _ => riff
               end))
    (fun _ => Resolved (ofZ 44100))
    (fun _ => Resolved true)
    (fun _ => Resolved tt)
    path_join
    (fun _ _ => None)
    extensions_table
    "/tmp".

(** Two assets whose keys differ and are equal once sanitized. *)
Definition slash_asset : MediaAsset :=
  mkMediaAsset "a/b" "one.mp3" audio 0 29 30 one one zero one (Some false) None.

Definition dash_asset : MediaAsset :=
  mkMediaAsset "a-b" "two.mp3" audio 0 29 30 one one zero one (Some false) None.

(** ** The invariant of the scan *)

(** What the scan knows after the samples [seen]: the keys of the time map
    are the keys seen; every span carries the volume and the loop flag of
    the first sample of its key, and the two maps hold its entry; no array
    of [assetVolumeMap] is empty. *)
Record scan_inv (seen : list AssetInfo) (st : placement) : Prop := {
  inv_keys : forall k,
    assetTimeMap st !! k = None <->
    List.find (fun s => bool_decide (ai_key s = k)) seen = None;
  inv_assets : forall a, a ∈ assets st ->
    exists s,
      List.find (fun s => bool_decide (ai_key s = key a)) seen = Some s /\
      volume a = ai_volume s /\
      loop a = ai_loop s /\
      assetLoopMap st !! key a = Some (default false (ai_loop s)) /\
      is_Some (assetTimeMap st !! key a);
  inv_volumes : forall k vc, assetVolumeMap st !! k = Some vc -> vc <> [];
}.

(** ** Tactics *)

(** Order goals between rates and the constants of the source. *)
Ltac qc_lra :=
  unfold Qclt, Qcle, qc in *; cbn [Z.to_pos] in *;
  change (this (Q2Qc 0)) with (0 # 1)%Q in *;
  change (this (Q2Qc (inject_Z 1))) with (1 # 1)%Q in *;
  change (this (Q2Qc (inject_Z 100))) with (100 # 1)%Q in *;
  change (this (Q2Qc (100 # 1))) with (100 # 1)%Q in *;
  change (this (Q2Qc (1 # 2))) with (1 # 2)%Q in *;
  lra.

(** Closed goals whose two sides hold rationals are decided by evaluation. *)
Ltac by_compute :=
  match goal with
  | |- ?P => apply (bool_decide_unpack P); vm_compute; exact I
  end.

(** ** The scan of [getAssetPlacement], one asset at a time *)

(** The samples of the asset [k], each with the index of its frame, in the
    order in which the scan meets them; the frames are numbered from
    [frame]. *)
Fixpoint key_samples (k : string) (frame : Z) (frames : list (list AssetInfo))
  : list (Z * AssetInfo) :=
  match frames with
  | [] => []
  | samples :: frames' =>
      ((fun s => (frame, s)) <$>
         List.filter (fun s => bool_decide (ai_key s = k)) samples)
      ++ key_samples k (frame + 1) frames'
  end.

(** What the scan holds for one key: its element of [assets] and its
    entries of the three maps. *)
Record track : Type := mkTrack {
  tr_asset : MediaAsset;
  tr_times : num * num;
  tr_loop : bool;
  tr_volumes : list breakpoint;
}.

Definition view (k : string) (st : placement) : option track :=
  match find_asset k (assets st), assetTimeMap st !! k,
        assetLoopMap st !! k, assetVolumeMap st !! k with
  | Some a, Some t, Some l, Some v => Some (mkTrack a t l v)
  | _, _, _, _ => None
  end.

(** The first branch of the loop body, seen from the key of the sample. *)
Definition track_start (frame : Z) (asset : AssetInfo) : track :=
  mkTrack
    (mkMediaAsset (ai_key asset) (ai_src asset) (ai_type asset) frame frame 0
       (ai_playbackRate asset) (ai_volume asset) (ai_currentTime asset)
       zero (ai_loop asset) None)
    (ai_currentTime asset, ai_currentTime asset)
    (default false (ai_loop asset))
    [(0, ai_volume asset)].

(** The second branch of the loop body, seen from the key of the sample. *)
Definition track_step (frame : Z) (asset : AssetInfo) (tr : track) : track :=
  mkTrack
    (set_endInVideo frame (tr_asset tr))
    (fst (tr_times tr), ai_currentTime asset)
    (tr_loop tr)
    (if (abs (ai_volume asset - last_volume (tr_volumes tr)) >? dec 1 1000)%num
     then tr_volumes tr ++
            [(frame - startInVideo (tr_asset tr), ai_volume asset)]
     else tr_volumes tr).

Definition track_next (o : option track) (fs : Z * AssetInfo) : option track :=
  Some match o with
       | None => track_start fs.1 fs.2
       | Some tr => track_step fs.1 fs.2 tr
       end.

(** The states that the scan reaches: an element of [assets] has an entry
    in the time map, and a key of the time map has an element and an entry
    in each map. *)
Definition coherent (st : placement) : Prop :=
  forall k,
    (is_Some (find_asset k (assets st)) -> is_Some (assetTimeMap st !! k)) /\
    (is_Some (assetTimeMap st !! k) -> is_Some (view k st)).

(** The breakpoints [rest] that follow [prev]: the offsets never decrease
    and stay within [bound], and each volume differs from the one before by
    more than 0.001. *)
Fixpoint envelope_ok (bound : Z) (prev : breakpoint) (rest : list breakpoint)
  : Prop :=
  match rest with
  | [] => True
  | c :: rest' =>
      fst prev <= fst c <= bound /\
      (abs (snd c - snd prev) >? dec 1 1000)%num = true /\
      envelope_ok bound c rest'
  end.

(** What the two final passes make of the element and the entries of a key. *)
Definition finish (tr : track) : MediaAsset :=
  let asset := tr_asset tr in
  let asset :=
    if bool_decide (1 < Z.of_nat (length (tr_volumes tr)))
    then set_volumeChanges (tr_volumes tr) asset
    else asset in
  let asset := set_duration (endInVideo asset - startInVideo asset + 1) asset in
  let asset :=
    if tr_loop tr
    then set_durationInSeconds PInf asset
    else set_durationInSeconds
           ((snd (tr_times tr) - fst (tr_times tr)) / playbackRate asset)%num asset in
  if (durationInSeconds asset =? zero)%num && bool_decide (1 < duration asset)
  then set_durationInSeconds PInf asset
  else asset.

(** What the scan holds for a key after its samples [first :: rest]. *)
Record track_spec (first : Z * AssetInfo) (rest : list (Z * AssetInfo))
    (tr : track) : Prop := {
  ts_key : key (tr_asset tr) = ai_key first.2;
  ts_src : src (tr_asset tr) = ai_src first.2;
  ts_type : type (tr_asset tr) = ai_type first.2;
  ts_rate : playbackRate (tr_asset tr) = ai_playbackRate first.2;
  ts_volume : volume (tr_asset tr) = ai_volume first.2;
  ts_trim : trimLeftInSeconds (tr_asset tr) = ai_currentTime first.2;
  ts_flag : loop (tr_asset tr) = ai_loop first.2;
  ts_start : startInVideo (tr_asset tr) = first.1;
  ts_end : endInVideo (tr_asset tr) = (List.last rest first).1;
  ts_no_envelope : volumeChanges (tr_asset tr) = None;
  ts_times :
    tr_times tr = (ai_currentTime first.2, ai_currentTime (List.last rest first).2);
  ts_looping : tr_loop tr = default false (ai_loop first.2);
  ts_envelope : exists vrest,
    tr_volumes tr = (0, ai_volume first.2) :: vrest /\
    envelope_ok ((List.last rest first).1 - first.1) (0, ai_volume first.2) vrest;
}.

(** ** The loop of [generateAudio], asset by asset *)

(** The test of the loop body once the probe has resolved: the asset is
    synthesized when its rate and its volume are not zero and, for an asset
    that is not of type [audio], the probe has found an audio stream. *)
Definition audible (E : environment) (outputDir : string) (asset : MediaAsset) : bool :=
  (playbackRate asset !=? zero)%num && (volume asset !=? zero)%num
  && (if bool_decide (type asset <> audio)
      then bool_decide
             (checkForAudioStream E (resolvePath E outputDir (src asset))
              = Resolved true)
      else true).

Definition is_synthesize (c : command) : bool :=
  match c with Synthesize _ _ _ => true | _ => false end.

(** The files after the engine has run the commands of [cmds] one after the
    other, starting on the files [fs]. *)
Definition files_after (E : environment) (fs : gmap string content)
    (cmds : list command) : gmap string content :=
  foldl (fun fs c => write_output (command_output c) (produced (engine E c fs)) fs)
    fs cmds.

(** Whether every one of these runs reports [end]. *)
Fixpoint all_reported_end (E : environment) (fs : gmap string content)
    (cmds : list command) : bool :=
  match cmds with
  | [] => true
  | c :: cmds' =>
      bool_decide (reported (engine E c fs) = None)
      && all_reported_end E
           (write_output (command_output c) (produced (engine E c fs)) fs) cmds'
  end.

(** A shard with a voice, a sound effect that stays silent, and a piece of
    music that loops. *)
Definition mixed_frames : list (list AssetInfo) :=
  [ [mkAssetInfo "voice" "voice.mp3" audio zero one one (Some false);
     mkAssetInfo "sfx" "sfx.mp3" audio zero one zero None];
    [mkAssetInfo "voice" "voice.mp3" audio (dec 1 30) one one (Some false);
     mkAssetInfo "music" "music.mp3" audio (dec 138 10) one (dec 1 2) (Some true)];
    [mkAssetInfo "music" "music.mp3" audio (dec 1 10) one (dec 1 2) (Some true)] ].

(** * Properties *)

(** ** Rational arithmetic *)

Lemma this_Q2Qc (q : Q) : (this (Q2Qc q) == q)%Q.
Proof. apply Qred_correct. Qed.

Lemma this_div100 (q : Qc) :
  (this (q / Q2Qc (inject_Z 100))%Qc == this q * (1 # 100))%Q.
Proof.
  unfold Qcdiv, Qcmult, Qcinv. rewrite !this_Q2Qc. reflexivity.
Qed.

Lemma this_double (q : Qc) :
  (this (q * Q2Qc (inject_Z 2))%Qc == this q * (2 # 1))%Q.
Proof.
  unfold Qcmult. rewrite !this_Q2Qc. reflexivity.
Qed.

Lemma this_inv (q : Qc) : (this (/ q)%Qc == / this q)%Q.
Proof. unfold Qcinv. apply this_Q2Qc. Qed.

(** Dividing a rate above 100 by 100 leaves it above 1 and lowers its
    ceiling: the measure of the first loop. *)
Lemma Qc_div100_lt (q : Qc) :
  (Q2Qc (inject_Z 100) < q)%Qc ->
  (Q2Qc (inject_Z 1) < q / Q2Qc (inject_Z 100))%Qc /\
  (Qceiling (q / Q2Qc (inject_Z 100))%Qc < Qceiling q)%Z /\
  (0 < Qceiling q)%Z.
Proof.
  intros H.
  pose proof (Qceiling_lt (q / Q2Qc (inject_Z 100))%Qc) as H1.
  pose proof (Qle_ceiling q) as H2.
  rewrite !Zlt_Qlt. unfold Z.sub in H1. rewrite inject_Z_plus, inject_Z_opp in H1.
  unfold Qclt in *.
  revert H1 H2.
  generalize (Qceiling (q / Q2Qc (inject_Z 100))%Qc) (Qceiling q).
  intros c1 c2. rewrite !this_div100. 
  revert H. rewrite !this_Q2Qc.
  change (inject_Z 100) with (100 # 1)%Q.
  change (inject_Z 1) with (1 # 1)%Q.
  change (inject_Z 0) with (0 # 1)%Q.
  intros; repeat split; lra.
Qed.

(** Doubling a positive rate below one half keeps it below 1 and lowers the
    ceiling of its inverse: the measure of the second loop. *)
Lemma Qc_double_lt (q : Qc) :
  (0 < q)%Qc -> (q < qc 1 2)%Qc ->
  (0 < q * Q2Qc (inject_Z 2))%Qc /\
  (q * Q2Qc (inject_Z 2) < Q2Qc (inject_Z 1))%Qc /\
  (Qceiling (/ (q * Q2Qc (inject_Z 2)))%Qc < Qceiling (/ q)%Qc)%Z /\
  (0 < Qceiling (/ q)%Qc)%Z.
Proof.
  intros H0 H.
  pose proof (Qceiling_lt (/ (q * Q2Qc (inject_Z 2)))%Qc) as H1.
  pose proof (Qle_ceiling (/ q)%Qc) as H2.
  rewrite !Zlt_Qlt. unfold Z.sub in H1. rewrite inject_Z_plus, inject_Z_opp in H1.
  unfold Qclt, qc in *.
  revert H1 H2.
  generalize (Qceiling (/ (q * Q2Qc (inject_Z 2)))%Qc) (Qceiling (/ q)%Qc).
  intros c1 c2. rewrite !this_inv, !this_double.
  revert H0 H. rewrite !this_Q2Qc.
  change (inject_Z 2) with (2 # 1)%Q.
  change (inject_Z 1) with (1 # 1)%Q.
  change (inject_Z 0) with (0 # 1)%Q.
  cbn [Z.to_pos].
  assert (Hinv : (/ (q * (2 # 1)) == / q * (1 # 2))%Q).
  { rewrite Qinv_mult_distr. reflexivity. }
  rewrite Hinv. intros H0 H.
  assert (Hq : (2 # 1 < / q)%Q).
  { apply Qlt_shift_inv_l; lra. } 
  intros; repeat split; lra.
Qed.

(** ** The tempo chain *)

Lemma inf_signed_not_fin (x p : Qc) (i : num) :
  (i = PInf \/ i = NInf) -> inf_signed x i <> Fin p.
Proof.
  intros [-> | ->]; unfold inf_signed; destruct (qpos x), (qneg x); discriminate.
Qed.

Lemma mul_fin_inv (a b : num) (p : Qc) :
  (a * b)%num = Fin p -> exists x y, a = Fin x /\ b = Fin y /\ p = (x * y)%Qc.
Proof.
  destruct a as [x| | |], b as [y| | |]; cbn; try discriminate.
  - intros [= <-]. eauto.
  - intros H. by apply inf_signed_not_fin in H; [|left].
  - intros H. by apply inf_signed_not_fin in H; [|right].
  - intros H. by apply inf_signed_not_fin in H; [|left].
  - intros H. by apply inf_signed_not_fin in H; [|right].
Qed.

Lemma chain_product_snoc (l : list filter) (p x : Qc) :
  chain_product l = Fin p ->
  chain_product (l ++ [Atempo (Fin x)]) = Fin (p * x).
Proof.
  revert p. induction l as [|f l IH]; intros p.
  - cbn. intros [= <-]. f_equal. ring.
  - cbn [chain_product foldr app]. intros H.
    apply mul_fin_inv in H as (a & b & Ha & Hb & ->).
    change (foldr _ one (l ++ _)) with (chain_product (l ++ [Atempo (Fin x)])).
    change (foldr _ one l) with (chain_product l) in Hb.
    rewrite (IH b Hb), Ha. cbn. f_equal. ring.
Qed.

Lemma valid_stage_100 : valid_stage (Atempo (ofZ 100)).
Proof. exists (Q2Qc (inject_Z 100)). split; [done|]. split; by vm_compute. Qed.

Lemma valid_stage_half : valid_stage (Atempo (dec 1 2)).
Proof. exists (qc 1 2). split; [done|]. split; by vm_compute. Qed.

Lemma Qc_le_100_dec (q : Qc) :
  ¬ (Q2Qc (inject_Z 100) < q)%Qc -> (q <= qc 100 1)%Qc.
Proof. intros H. apply Qcnot_lt_le in H. exact H. Qed.

(** The first loop, on a finite rate: it terminates within the ceiling of
    the rate, keeps the product of the chain times the rate, and leaves a
    rate of at most 100 (above 1 when it started above 1). *)
Lemma atempo_speed_up_spec (fuel : nat) :
  forall (q : Qc) (acc : list filter) (p : Qc),
    (Z.to_nat (Qceiling q) < fuel)%nat ->
    chain_product acc = Fin p ->
    Forall valid_stage acc ->
    exists (r : Qc) (acc' : list filter) (p' : Qc),
      atempo_speed_up fuel (Fin q) acc = Some (Fin r, acc') /\
      chain_product acc' = Fin p' /\
      (p' * r = p * q)%Qc /\
      Forall valid_stage acc' /\
      (r <= qc 100 1)%Qc /\
      ((Q2Qc (inject_Z 1) < q)%Qc -> (Q2Qc (inject_Z 1) < r)%Qc) /\
      ((q <= qc 100 1)%Qc -> r = q /\ acc' = acc).
Proof.
  induction fuel as [|fuel IH]; intros q acc p Hfuel Hp Hacc; [lia|].
  cbn [atempo_speed_up]. unfold gtb, ofZ. cbn [ltb].
  case_bool_decide as Hgt.
  - destruct (Qc_div100_lt q Hgt) as (H1 & Hc & Hc0).
    destruct (IH (q / Q2Qc (inject_Z 100))%Qc (acc ++ [Atempo (ofZ 100)])
                (p * Q2Qc (inject_Z 100))%Qc) as (r & acc' & p' & He & Hp' & Hm & Hv & Hr & H1r & _).
    + lia.
    + by apply chain_product_snoc.
    + apply Forall_app. split; [done|]. constructor; [apply valid_stage_100|constructor].
    + exists r, acc', p'. cbn [div]. rewrite bool_decide_eq_false_2 by done.
      split; [exact He|]. split; [exact Hp'|]. split.
      { rewrite Hm. field. done. }
      split; [exact Hv|]. split; [exact Hr|]. split.
      { intros _. by apply H1r. }
      intros Hle. exfalso. by apply (Qcle_not_lt _ _ Hle).
  - exists q, acc, p. split; [done|]. split; [done|]. split; [done|].
    split; [done|]. split; [by apply Qc_le_100_dec|]. done.
Qed.

(** The second loop, on a positive finite rate: it terminates within the
    ceiling of the inverse rate and leaves a rate of at least one half
    (below 1 when it started below 1). *)
Lemma atempo_slow_down_spec (fuel : nat) :
  forall (q : Qc) (acc : list filter) (p : Qc),
    (0 < q)%Qc ->
    (Z.to_nat (Qceiling (/ q)%Qc) < fuel)%nat ->
    chain_product acc = Fin p ->
    Forall valid_stage acc ->
    exists (r : Qc) (acc' : list filter) (p' : Qc),
      atempo_slow_down fuel (Fin q) acc = Some (Fin r, acc') /\
      chain_product acc' = Fin p' /\
      (p' * r = p * q)%Qc /\
      Forall valid_stage acc' /\
      (qc 1 2 <= r)%Qc /\
      ((q < Q2Qc (inject_Z 1))%Qc -> (r < Q2Qc (inject_Z 1))%Qc) /\
      ((qc 1 2 <= q)%Qc -> r = q /\ acc' = acc).
Proof.
  induction fuel as [|fuel IH]; intros q acc p Hpos Hfuel Hp Hacc; [lia|].
  cbn [atempo_slow_down]. unfold dec, ofZ. cbn [ltb].
  case_bool_decide as Hlt.
  - destruct (Qc_double_lt q Hpos Hlt) as (H0 & H1 & Hc & Hc0).
    destruct (IH (q * Q2Qc (inject_Z 2))%Qc (acc ++ [Atempo (dec 1 2)])
                (p * qc 1 2)%Qc) as (r & acc' & p' & He & Hp' & Hm & Hv & Hr & H1r & _).
    + exact H0.
    + lia.
    + by apply chain_product_snoc.
    + apply Forall_app. split; [done|]. constructor; [apply valid_stage_half|constructor].
    + exists r, acc', p'. cbn [mul].
      split; [exact He|]. split; [exact Hp'|]. split.
      { rewrite Hm. 
        assert (Hh : (qc 1 2 * Q2Qc (inject_Z 2) = 1)%Qc) by (by apply Qc_is_canon).
        transitivity (p * q * (qc 1 2 * Q2Qc (inject_Z 2)))%Qc; [ring|].
        rewrite Hh. ring. }
      split; [exact Hv|]. split; [exact Hr|]. split.
      { intros _. by apply H1r. }
      intros Hle. exfalso. by apply (Qcle_not_lt _ _ Hle).
  - exists q, acc, p. split; [done|]. split; [done|]. split; [done|].
    split; [done|]. split; [by apply Qcnot_lt_le|]. done.
Qed.


Lemma atempo_fuel_speed_up (q : Qc) :
  (Z.to_nat (Qceiling q) < atempo_fuel (Fin q))%nat.
Proof. cbn. lia. Qed.

Lemma atempo_fuel_slow_down (q : Qc) :
  (Z.to_nat (Qceiling (/ q)%Qc) < atempo_fuel (Fin q))%nat.
Proof. cbn. lia. Qed.

(** C2.  For every finite playback rate [r > 0], [calculateAtempoFilters]
    returns a chain whose stage factors multiply to [r] (exactly, in the
    rational model of numbers) and each of whose stages lies in
    [[0.5, 100]]; for [r = 1] the chain is empty. *)
Theorem calculateAtempoFilters_product (r : Qc) :
  (0 < r)%Qc ->
  exists fs : list filter,
    calculateAtempoFilters (Fin r) = Some fs /\
    chain_product fs = Fin r /\
    Forall valid_stage fs /\
    (r = Q2Qc (inject_Z 1) -> fs = []).
Proof.
  intros Hpos. unfold calculateAtempoFilters, calculateAtempoFilters_fuel.
  destruct (atempo_speed_up_spec _ r [] 1%Qc (atempo_fuel_speed_up r))
    as (r1 & acc1 & p1 & He1 & Hp1 & Hm1 & Hv1 & Hr1 & H1r1 & Hsame1);
    [done|constructor|].
  rewrite He1. cbn [mbind option_bind]. unfold gtb, one, ofZ. cbn [ltb].
  case_bool_decide as Hgt.
  - assert (Hhalf : (qc 1 2 <= r)%Qc).
    { destruct (Qclt_le_dec (qc 100 1) r) as [Hbig|Hsmall].
      - qc_lra.
      - destruct (Hsame1 Hsmall) as [-> _]. qc_lra. }
    destruct (atempo_slow_down_spec _ r (acc1 ++ [Atempo (Fin r1)]) (p1 * r1)%Qc
                Hpos (atempo_fuel_slow_down r))
      as (r2 & acc2 & p2 & He2 & _ & _ & _ & _ & _ & Hsame2).
    { by apply chain_product_snoc. }
    { apply Forall_app. split; [done|]. constructor; [|constructor].
      exists r1. split; [done|]. split; [qc_lra|done]. }
    destruct (Hsame2 Hhalf) as [-> ->]. rewrite He2. cbn [mbind option_bind ltb].
    assert (Hr : (Q2Qc (inject_Z 1) < r)%Qc).
    { destruct (Qclt_le_dec (qc 100 1) r) as [Hbig|Hsmall].
      - qc_lra.
      - by destruct (Hsame1 Hsmall) as [<- _]. }
    rewrite bool_decide_eq_false_2 by (intros Hlt; qc_lra).
    eexists. split; [done|]. split.
    { rewrite (chain_product_snoc _ _ _ Hp1). f_equal. rewrite Hm1. ring. }
    split.
    { apply Forall_app. split; [done|]. constructor; [|constructor].
      exists r1. split; [done|]. split; [qc_lra|done]. }
    intros ->. exfalso. qc_lra.
  - assert (Hle1 : (r <= Q2Qc (inject_Z 1))%Qc).
    { apply Qcnot_lt_le. intros Hlt. by apply Hgt, H1r1. }
    destruct Hsame1 as [-> ->]; [qc_lra|].
    destruct (atempo_slow_down_spec _ r [] 1%Qc Hpos (atempo_fuel_slow_down r))
      as (r2 & acc2 & p2 & He2 & Hp2 & Hm2 & Hv2 & Hr2 & H1r2 & Hsame2);
      [done|constructor|].
    rewrite He2. cbn [mbind option_bind ltb].
    case_bool_decide as Hlt.
    + eexists. split; [done|]. split.
      { rewrite (chain_product_snoc _ _ _ Hp2). f_equal. rewrite Hm2. ring. }
      split.
      { apply Forall_app. split; [done|]. constructor; [|constructor].
        exists r2. split; [done|]. split; [done|qc_lra]. }
      intros ->. destruct Hsame2 as [-> _]; [qc_lra|]. exfalso. qc_lra.
    + assert (Hge : ¬ (r < Q2Qc (inject_Z 1))%Qc).
      { intros Hr. by apply Hlt, H1r2. }
      assert (r = Q2Qc (inject_Z 1)) as ->.
      { apply Qcle_antisym; [done|]. by apply Qcnot_lt_le. }
      destruct Hsame2 as [-> ->]; [qc_lra|].
      eexists. split; [done|]. split; [done|]. split; [constructor|done].
Qed.

(** The rate 25000 is split into two stages at 100 and one at 2.5. *)
Lemma calculateAtempoFilters_product_witness :
  exists fs : list filter,
    calculateAtempoFilters (Fin (qc 25000 1)) = Some fs /\
    chain_product fs = Fin (qc 25000 1) /\
    Forall valid_stage fs /\
    (qc 25000 1 = Q2Qc (inject_Z 1) -> fs = []).
Proof.
  apply (calculateAtempoFilters_product (qc 25000 1)). by vm_compute.
Defined.

(** The bound on the iterations is no restriction: more iterations give the
    same result, and the rates on which the model returns [None] are rates
    on which the condition of a loop of the source never becomes false. *)
Lemma atempo_speed_up_mono (fuel fuel' : nat) (rate : num) (acc : list filter) res :
  (fuel <= fuel')%nat ->
  atempo_speed_up fuel rate acc = Some res ->
  atempo_speed_up fuel' rate acc = Some res.
Proof.
  revert fuel' rate acc. induction fuel as [|fuel IH]; intros fuel' rate acc Hle; [done|].
  destruct fuel' as [|fuel']; [lia|]. cbn [atempo_speed_up].
  destruct (rate >? ofZ 100)%num; [|done]. apply IH. lia.
Qed.

Lemma atempo_slow_down_mono (fuel fuel' : nat) (rate : num) (acc : list filter) res :
  (fuel <= fuel')%nat ->
  atempo_slow_down fuel rate acc = Some res ->
  atempo_slow_down fuel' rate acc = Some res.
Proof.
  revert fuel' rate acc. induction fuel as [|fuel IH]; intros fuel' rate acc Hle; [done|].
  destruct fuel' as [|fuel']; [lia|]. cbn [atempo_slow_down].
  destruct (rate <? dec 1 2)%num; [|done]. apply IH. lia.
Qed.

Lemma calculateAtempoFilters_fuel_mono (fuel fuel' : nat) (rate : num) fs :
  (fuel <= fuel')%nat ->
  calculateAtempoFilters_fuel fuel rate = Some fs ->
  calculateAtempoFilters_fuel fuel' rate = Some fs.
Proof.
  intros Hle. unfold calculateAtempoFilters_fuel.
  destruct (atempo_speed_up fuel rate []) as [[r1 acc1]|] eqn:E1; [|by cbn].
  rewrite (atempo_speed_up_mono _ _ _ _ _ Hle E1). cbn [mbind option_bind].
  destruct (atempo_slow_down fuel rate _) as [[r2 acc2]|] eqn:E2; [|by cbn].
  by rewrite (atempo_slow_down_mono _ _ _ _ _ Hle E2).
Qed.

Lemma atempo_slow_down_nonpos (fuel : nat) (q : Qc) (acc : list filter) :
  (q <= 0)%Qc -> atempo_slow_down fuel (Fin q) acc = None.
Proof.
  revert q acc. induction fuel as [|fuel IH]; intros q acc Hq; [done|].
  cbn [atempo_slow_down]. unfold dec. cbn [ltb mul ofZ].
  rewrite bool_decide_eq_true_2 by qc_lra.
  apply IH. revert Hq. unfold Qcle. rewrite this_double.
  change (this (Q2Qc 0)) with (0 # 1)%Q. lra.
Qed.

Lemma atempo_slow_down_NInf (fuel : nat) (acc : list filter) :
  atempo_slow_down fuel NInf acc = None.
Proof.
  revert acc. induction fuel as [|fuel IH]; intros acc; [done|]. cbn. apply IH.
Qed.

Lemma atempo_speed_up_PInf (fuel : nat) (acc : list filter) :
  atempo_speed_up fuel PInf acc = None.
Proof.
  revert acc. induction fuel as [|fuel IH]; intros acc; [done|]. cbn. apply IH.
Qed.

(** On a rate that is zero, negative or infinite the condition of a loop of
    [calculateAtempoFilters] stays true, whatever the bound. *)
Lemma calculateAtempoFilters_diverges (fuel : nat) (rate : num) :
  (rate = PInf \/ rate = NInf \/ exists q, rate = Fin q /\ (q <= 0)%Qc) ->
  calculateAtempoFilters_fuel fuel rate = None.
Proof.
  unfold calculateAtempoFilters_fuel. intros [-> | [-> | (q & -> & Hq)]].
  - by rewrite atempo_speed_up_PInf.
  - destruct (atempo_speed_up fuel NInf []) as [[r1 acc1]|]; [|by cbn].
    cbn [mbind option_bind]. by rewrite atempo_slow_down_NInf.
  - destruct (atempo_speed_up fuel (Fin q) []) as [[r1 acc1]|]; [|by cbn].
    cbn [mbind option_bind]. by rewrite atempo_slow_down_nonpos.
Qed.

(** ** Evaluation on concrete inputs *)


Lemma zero_div_not_pos (x : num) : (zero / x >? zero)%num = false.
Proof.
  destruct x as [q| | |]; try reflexivity.
  unfold zero, ofZ, gtb. cbn [div]. case_bool_decide as Hq.
  - reflexivity.
  - cbn [ltb]. apply bool_decide_eq_false_2.
    replace (Q2Qc (inject_Z 0) / q)%Qc with (Q2Qc (inject_Z 0)).
    + intros H. by apply Qclt_not_eq in H.
    + unfold Qcdiv. change (Q2Qc (inject_Z 0)) with 0%Qc. ring.
Qed.

(** A two-breakpoint envelope never yields a fade: its second breakpoint is
    both the start of the fade and its end, so the duration of the fade is
    zero and only the first volume is applied. *)
Lemma two_breakpoint_envelope_static (asset : MediaAsset) (fps : num)
    (c0 c1 : breakpoint) :
  volumeChanges asset = Some [c0; c1] ->
  volume_filters asset fps = [Volume (snd c0)].
Proof.
  intros Hvc. unfold volume_filters. rewrite Hvc. cbn [List.last fst snd].
  rewrite Z.sub_diag. change (ofZ 0) with zero.
  by rewrite zero_div_not_pos, !andb_false_r.
Qed.

(** C1.  On the scenario of the specification [getAssetPlacement] returns
    one span with [duration = 3] and the envelope [[(0,1), (2,0)]], but the
    chain of [prepareAudio] holds no fade-out: [fadeStartFrame] is the frame
    of the second breakpoint, which is also the last one, so [fadeDuration]
    is zero and only the constant gain [volume=1] is pushed, whatever the
    frame rate. *)
Theorem scenario_fade_out_missing :
  getAssetPlacement scenario_frames = [scenario_asset] /\
  duration scenario_asset = 3 /\
  volumeChanges scenario_asset = Some [(0, one); (2, zero)] /\
  calculateAtempoFilters (playbackRate scenario_asset) = Some [] /\
  forall (startFrame endFrame : Z) (fps assetSampleRate : num),
    volume_filters scenario_asset fps = [Volume one] /\
    Forall (fun f => is_fade_out f = false)
      (audioFilters scenario_asset startFrame endFrame fps assetSampleRate []).
Proof.
  split; [by_compute|]. split; [reflexivity|]. split; [reflexivity|].
  split; [by_compute|].
  intros startFrame endFrame fps sr.
  assert (Hv : volume_filters scenario_asset fps = [Volume one]).
  { unfold volume_filters, scenario_asset.
    cbn [volumeChanges List.last fst snd].
    change (2 - 2) with 0. change (ofZ 0) with zero.
    rewrite zero_div_not_pos, !andb_false_r. reflexivity. }
  split; [exact Hv|].
  unfold audioFilters. rewrite Hv.
  change (needsLooping scenario_asset) with false. cbn [app].
  repeat constructor.
Qed.

(** ** The order of the filter chain *)

Lemma ordered_by_app (rank : stage_kind -> nat) (l1 l2 : list filter) :
  ordered_by rank l1 -> ordered_by rank l2 ->
  (forall f g, f ∈ l1 -> g ∈ l2 -> (rank (kind_of f) <= rank (kind_of g))%nat) ->
  ordered_by rank (l1 ++ l2).
Proof.
  induction l1 as [|f l1 IH]; intros H1 H2 H12; [exact H2|].
  cbn [app ordered_by] in *. destruct H1 as [Hf H1]. split.
  - apply Forall_app. split; [exact Hf|].
    apply Forall_forall. intros g Hg. apply H12; [apply list_elem_of_here|exact Hg].
  - apply IH; [exact H1|exact H2|]. intros f' g Hf' Hg.
    apply H12; [by apply list_elem_of_further|exact Hg].
Qed.

Lemma ordered_by_app_bound (rank : stage_kind -> nat) (n : nat) (l1 l2 : list filter) :
  ordered_by rank l1 -> ordered_by rank l2 ->
  Forall (fun f => (rank (kind_of f) <= n)%nat) l1 ->
  Forall (fun g => (n <= rank (kind_of g))%nat) l2 ->
  ordered_by rank (l1 ++ l2).
Proof.
  intros H1 H2 Hl1 Hl2. apply ordered_by_app; [exact H1|exact H2|].
  rewrite Forall_forall in Hl1, Hl2. intros f g Hf Hg.
  specialize (Hl1 f Hf). specialize (Hl2 g Hg). lia.
Qed.

Lemma ordered_by_same_kind (rank : stage_kind -> nat) (k : stage_kind)
    (l : list filter) :
  Forall (fun f => kind_of f = k) l -> ordered_by rank l.
Proof.
  induction 1 as [|f l Hf Hl IH]; [exact I|]. split; [|exact IH].
  eapply Forall_impl; [exact Hl|]. intros g Hg. cbn in Hg. by rewrite Hf, Hg.
Qed.

Lemma index_of_app_absent (k : stage_kind) (l1 l2 : list filter) :
  Forall (fun f => kind_of f <> k) l1 ->
  index_of k (l1 ++ l2) = (fun i => (length l1 + i)%nat) <$> index_of k l2.
Proof.
  induction 1 as [|f l1 Hf Hl IH]; cbn [app index_of length].
  - by destruct (index_of k l2).
  - rewrite bool_decide_eq_false_2 by exact Hf. rewrite IH.
    by destruct (index_of k l2).
Qed.

Lemma volume_filters_kind (asset : MediaAsset) (fps : num) :
  Forall (fun f => kind_of f = VolumeShaping) (volume_filters asset fps).
Proof.
  unfold volume_filters.
  destruct (volumeChanges asset) as [[|c0 [|c1 rest]]|]; try by repeat constructor.
  repeat match goal with
         | |- context [if ?b then _ else _] => destruct b
         end; by repeat constructor.
Qed.

Lemma atempo_speed_up_kind (fuel : nat) (rate : num) (acc : list filter) r acc' :
  Forall (fun f => kind_of f = Tempo) acc ->
  atempo_speed_up fuel rate acc = Some (r, acc') ->
  Forall (fun f => kind_of f = Tempo) acc'.
Proof.
  revert rate acc. induction fuel as [|fuel IH]; intros rate acc Hacc; [done|].
  cbn [atempo_speed_up]. destruct (rate >? ofZ 100)%num.
  - apply IH. apply Forall_app. split; [exact Hacc|]. by repeat constructor.
  - by intros [= <- <-].
Qed.

Lemma atempo_slow_down_kind (fuel : nat) (rate : num) (acc : list filter) r acc' :
  Forall (fun f => kind_of f = Tempo) acc ->
  atempo_slow_down fuel rate acc = Some (r, acc') ->
  Forall (fun f => kind_of f = Tempo) acc'.
Proof.
  revert rate acc. induction fuel as [|fuel IH]; intros rate acc Hacc; [done|].
  cbn [atempo_slow_down]. destruct (rate <? dec 1 2)%num.
  - apply IH. apply Forall_app. split; [exact Hacc|]. by repeat constructor.
  - by intros [= <- <-].
Qed.

(** Whatever the rate, [calculateAtempoFilters] returns tempo stages only. *)
Lemma calculateAtempoFilters_kind (rate : num) (fs : list filter) :
  calculateAtempoFilters rate = Some fs ->
  Forall (fun f => kind_of f = Tempo) fs.
Proof.
  unfold calculateAtempoFilters, calculateAtempoFilters_fuel.
  destruct (atempo_speed_up _ rate []) as [[r1 acc1]|] eqn:E1; [|by cbn].
  cbn [mbind option_bind].
  destruct (atempo_slow_down _ rate _) as [[r2 acc2]|] eqn:E2; [|by cbn].
  cbn [mbind option_bind]. intros [= <-].
  apply atempo_speed_up_kind in E1; [|constructor].
  apply atempo_slow_down_kind in E2.
  - destruct (r2 <? one)%num; [|exact E2].
    apply Forall_app. split; [exact E2|]. by repeat constructor.
  - destruct (r1 >? one)%num; [|exact E1].
    apply Forall_app. split; [exact E1|]. by repeat constructor.
Qed.

(** The chain as a concatenation of its six parts. *)
Lemma audioFilters_parts (asset : MediaAsset) (startFrame endFrame : Z)
    (fps sr : num) (atempoFilters : list filter) :
  audioFilters asset startFrame endFrame fps sr atempoFilters =
    (if needsLooping asset
     then [Aloop (loopCount asset startFrame endFrame fps)] else []) ++
    atempoFilters ++
    [Atrim (trimLeft asset) (trimRight asset startFrame endFrame fps)] ++
    [Apad (padEnd asset startFrame endFrame fps sr)] ++
    [Adelay (padStart asset fps)] ++
    volume_filters asset fps.
Proof.
  unfold audioFilters. destruct (needsLooping asset); cbn [app];
    by rewrite <- ?app_assoc.
Qed.

(** C3, as the source has it.  For every asset whose tempo chain is
    computed, the chain of [prepareAudio] is ordered as: looping (present
    exactly when the span is looping and unbounded), tempo, trim, end pad,
    start pad, volume shaping; the end-padding stage comes before the
    start-padding stage. *)
Theorem audioFilters_order (asset : MediaAsset) (startFrame endFrame : Z)
    (fps sr : num) (atempoFilters : list filter) :
  calculateAtempoFilters (playbackRate asset) = Some atempoFilters ->
  let chain := audioFilters asset startFrame endFrame fps sr atempoFilters in
  ordered_by code_rank chain /\
  precedes Trim PadEnd chain /\
  precedes PadEnd PadStart chain /\
  precedes PadStart VolumeShaping chain /\
  (needsLooping asset = true <-> index_of Looping chain = Some O).
Proof.
  intros Hat chain. subst chain. rewrite audioFilters_parts.
  apply calculateAtempoFilters_kind in Hat.
  pose proof (volume_filters_kind asset fps) as Hvol.
  set (lp := if needsLooping asset then _ else _).
  assert (Hlp : Forall (fun f => kind_of f = Looping) lp).
  { subst lp. destruct (needsLooping asset); by repeat constructor. }
  assert (Hvne : exists v vs, volume_filters asset fps = v :: vs).
  { unfold volume_filters.
    destruct (volumeChanges asset) as [[|c0 [|c1 rest]]|]; eauto.
    repeat match goal with
           | |- context [if ?b then _ else _] => destruct b
           end; cbn [app]; eauto. }
  destruct Hvne as (v & vs & Hv). rewrite Hv in *.
  inversion Hvol as [|? ? Hkv Hvs]; subst.
  assert (Hskip : forall k, k <> Looping -> k <> Tempo ->
            Forall (fun f => kind_of f <> k) lp /\
            Forall (fun f => kind_of f <> k) atempoFilters).
  { intros k H1 H2. split; (eapply Forall_impl; [eassumption|]);
      intros f Hf; cbn in Hf; congruence. }
  split; [|split; [|split; [|split]]].
  - assert (Hlow : forall n l,
              Forall (fun g => (S n <= code_rank (kind_of g))%nat) l ->
              Forall (fun g => (n <= code_rank (kind_of g))%nat) l).
    { intros n l H. eapply Forall_impl; [exact H|]. intros g Hg. cbn in Hg. lia. }
    assert (O5 : Forall (fun g => (5 <= code_rank (kind_of g))%nat) (v :: vs)).
    { eapply Forall_impl; [exact Hvol|]. intros g Hg. cbn in Hg. by rewrite Hg. }
    apply ordered_by_app_bound with (n := 0%nat).
    { by apply (ordered_by_same_kind _ Looping). }
    2:{ eapply Forall_impl; [exact Hlp|]. intros g Hg. cbn in Hg. by rewrite Hg. }
    2:{ apply Forall_forall. intros g _. lia. }
    apply ordered_by_app_bound with (n := 1%nat).
    { by apply (ordered_by_same_kind _ Tempo). }
    2:{ eapply Forall_impl; [exact Hat|]. intros g Hg. cbn in Hg. by rewrite Hg. }
    2:{ cbn [app]. do 3 (constructor; [cbn; lia|]).
        by do 4 apply Hlow. }
    set (vol := v :: vs) in *.
    cbn [app ordered_by kind_of code_rank].
    split; [constructor; [cbn; lia|constructor; [cbn; lia|by do 3 apply Hlow]]|].
    split; [constructor; [cbn; lia|by do 2 apply Hlow]|].
    split; [by apply Hlow|].
    by apply (ordered_by_same_kind _ VolumeShaping).
  - unfold precedes.
    destruct (Hskip Trim) as [H1 H2]; [done..|].
    destruct (Hskip PadEnd) as [H3 H4]; [done..|].
    rewrite !(index_of_app_absent _ lp), !(index_of_app_absent _ atempoFilters) by done.
    cbn [app index_of kind_of]. repeat case_bool_decide; try congruence; cbn; lia.
  - unfold precedes.
    destruct (Hskip PadStart) as [H1 H2]; [done..|].
    destruct (Hskip PadEnd) as [H3 H4]; [done..|].
    rewrite !(index_of_app_absent _ lp), !(index_of_app_absent _ atempoFilters) by done.
    cbn [app index_of kind_of]. repeat case_bool_decide; try congruence; cbn; lia.
  - unfold precedes.
    destruct (Hskip PadStart) as [H1 H2]; [done..|].
    destruct (Hskip VolumeShaping) as [H3 H4]; [done..|].
    rewrite !(index_of_app_absent _ lp), !(index_of_app_absent _ atempoFilters) by done.
    cbn [app index_of kind_of]. rewrite Hkv.
    repeat case_bool_decide; try congruence; cbn; lia.
  - subst lp. destruct (needsLooping asset); cbn [app index_of kind_of].
    + by rewrite bool_decide_eq_true_2.
    + split; [done|].
      destruct atempoFilters as [|f fs]; cbn [app index_of kind_of].
      * rewrite bool_decide_eq_false_2 by done.
        by destruct (if bool_decide (PadEnd = Looping) then _ else _).
      * inversion Hat as [|? ? Hf ?]; subst.
        rewrite bool_decide_eq_false_2 by (rewrite Hf; done).
        by destruct (index_of Looping _).
Qed.

(** The chain of a looping span at rate 1. *)
Lemma audioFilters_order_witness :
  let chain := audioFilters looping_asset 0 30 (ofZ 30) (ofZ 44100) [] in
  ordered_by code_rank chain /\
  precedes Trim PadEnd chain /\
  precedes PadEnd PadStart chain /\
  precedes PadStart VolumeShaping chain /\
  (needsLooping looping_asset = true <-> index_of Looping chain = Some O).
Proof.
  apply (audioFilters_order looping_asset 0 30 (ofZ 30) (ofZ 44100) []).
  by_compute.
Defined.

(** C3, as the specification words it, fails: on a looping span at rate 1
    the chain is looping, trim, end pad, start pad, volume; it is not in the
    order looping, tempo, trim, start pad, end pad, volume, and the
    start-padding stage does not come before the end-padding stage. *)
Lemma audioFilters_spec_order_fails :
  calculateAtempoFilters (playbackRate looping_asset) = Some [] /\
  let chain := audioFilters looping_asset 0 30 (ofZ 30) (ofZ 44100) [] in
  kind_of <$> chain = [Looping; Trim; PadEnd; PadStart; VolumeShaping] /\
  ~ ordered_by spec_rank chain /\
  ~ precedes PadStart PadEnd chain.
Proof.
  split; [by_compute|]. cbn zeta.
  unfold audioFilters. change (needsLooping looping_asset) with true.
  change (volume_filters looping_asset (ofZ 30)) with [Volume one].
  cbn [app]. split; [reflexivity|]. split.
  - cbn [ordered_by]. intros (_ & _ & H & _).
    inversion H as [|? ? Hle _]; subst. cbn in Hle. lia.
  - unfold precedes. cbn [index_of kind_of].
    repeat case_bool_decide; try congruence. cbn. lia.
Qed.

(** ** The extraction window *)

Lemma Qc_plus_nonneg_not_lt (a b t : Qc) :
  (0 <= a)%Qc -> (0 <= b)%Qc -> ~ (a + (t + b) < t)%Qc.
Proof.
  unfold Qcle, Qclt, Qcplus. rewrite !this_Q2Qc.
  change (this (Q2Qc 0)) with (0 # 1)%Q. intros Ha Hb. lra.
Qed.

Lemma Qc_div_nonneg (a f : Qc) : (0 <= a)%Qc -> (0 < f)%Qc -> (0 <= a / f)%Qc.
Proof.
  intros Ha Hf. unfold Qcdiv. apply Qcmult_nonneg_nonneg; [exact Ha|].
  apply Qclt_le_weak. by apply Qcinv_pos.
Qed.

Lemma Qc_ofZ_nonneg (z : Z) : (0 <= z)%Z -> (0 <= Q2Qc (inject_Z z))%Qc.
Proof.
  intros Hz. unfold Qcle. rewrite !this_Q2Qc.
  change (inject_Z 0 <= inject_Z z)%Q. by rewrite <- Zle_Qle.
Qed.

Lemma Qc_window_shift (a t d : Qc) :
  (a + (t + d) < t)%Qc <-> (d + a < Q2Qc (inject_Z 0))%Qc.
Proof.
  unfold Qclt, Qcplus. rewrite !this_Q2Qc.
  change (inject_Z 0) with (0 # 1)%Q. split; intros H; lra.
Qed.

Lemma Qc_window_inside (a r t d : Qc) :
  (0 <= a)%Qc -> (0 <= r)%Qc -> (t + r < t + d)%Qc ->
  ~ (d + a < Q2Qc (inject_Z 0))%Qc.
Proof.
  unfold Qcle, Qclt, Qcplus. rewrite !this_Q2Qc.
  change (this (Q2Qc 0)) with (0 # 1)%Q.
  change (inject_Z 0) with (0 # 1)%Q. intros Ha Hr Hlt. lra.
Qed.




(** ** The scan of [getAssetPlacement] *)

Lemma find_snoc {A : Type} (f : A -> bool) (l : list A) (x : A) :
  List.find f (l ++ [x]) =
    match List.find f l with
    | Some y => Some y
    | None => if f x then Some x else None
    end.
Proof.
  induction l as [|y l IH]; cbn; [done|]. by destruct (f y).
Qed.

Lemma elem_of_update_first (k : string) (f : MediaAsset -> MediaAsset)
    (l : list MediaAsset) (a : MediaAsset) :
  a ∈ update_first k f l -> a ∈ l \/ exists a0, a0 ∈ l /\ a = f a0.
Proof.
  induction l as [|b l IH]; cbn; [by left|].
  case_bool_decide.
  - intros [->|Ha]%elem_of_cons.
    + right. exists b. split; [apply list_elem_of_here|done].
    + left. by apply list_elem_of_further.
  - intros [->|Ha]%elem_of_cons.
    + left. apply list_elem_of_here.
    + destruct (IH Ha) as [Hl|(a0 & Ha0 & ->)].
      * left. by apply list_elem_of_further.
      * right. exists a0. split; [by apply list_elem_of_further|done].
Qed.


Lemma scan_inv_empty : scan_inv [] placement_empty.
Proof.
  split.
  - intros k. cbn. by rewrite lookup_empty.
  - intros a Ha. cbn in Ha. by apply elem_of_nil in Ha.
  - intros k vc. cbn. by rewrite lookup_empty.
Qed.

Lemma scan_inv_keys_step (seen : list AssetInfo) (tm : gmap string (num * num))
    (s' : AssetInfo) (v : num * num) :
  (forall k, tm !! k = None <->
     List.find (fun s => bool_decide (ai_key s = k)) seen = None) ->
  forall k, <[ai_key s' := v]> tm !! k = None <->
     List.find (fun s => bool_decide (ai_key s = k)) (seen ++ [s']) = None.
Proof.
  intros Hk k. rewrite find_snoc. destruct (decide (ai_key s' = k)) as [->|Hne].
  - rewrite lookup_insert_eq, bool_decide_eq_true_2 by done.
    by destruct (List.find _ seen).
  - rewrite lookup_insert_ne, bool_decide_eq_false_2 by done.
    rewrite Hk. by destruct (List.find _ seen).
Qed.

Lemma place_sample_inv (frame : Z) (seen : list AssetInfo) (st : placement)
    (s' : AssetInfo) :
  scan_inv seen st -> scan_inv (seen ++ [s']) (place_sample frame st s').
Proof.
  intros [Hk Ha Hv]. unfold place_sample.
  destruct (assetTimeMap st !! ai_key s') as [timeInfo|] eqn:Et.
  - (* the key is known *)
    assert (Hold : forall assets',
              (forall a, a ∈ assets' ->
                 a ∈ assets st \/ exists a0, a0 ∈ assets st /\ a = set_endInVideo frame a0) ->
              forall vm, (forall k vc, vm !! k = Some vc -> vc <> []) ->
              scan_inv (seen ++ [s'])
                (mkPlacement assets'
                   (<[ai_key s' := (timeInfo.1, ai_currentTime s')]> (assetTimeMap st))
                   (assetLoopMap st) vm)).
    { intros assets' Hsub vm Hvm. split; cbn [assets assetTimeMap assetLoopMap assetVolumeMap].
      - by apply scan_inv_keys_step.
      - intros a Hin.
        assert (exists a0, a0 ∈ assets st /\ key a = key a0 /\ volume a = volume a0 /\
                           loop a = loop a0) as (a0 & Ha0 & Hkey & Hvol & Hloop).
        { destruct (Hsub a Hin) as [Hl|(a0 & Ha0 & ->)]; eauto 10. }
        destruct (Ha a0 Ha0) as (s & Hf & Hvs & Hls & Hlm & Htm).
        exists s. rewrite Hkey, Hvol, Hloop, find_snoc, Hf.
        split; [done|]. split; [done|]. split; [done|]. split; [done|].
        rewrite lookup_insert. case_decide; [by eexists|done].
      - exact Hvm. }
    destruct (find_asset (ai_key s') (assets st)) as [existingAsset|].
    + assert (Hup : forall a, a ∈ update_first (ai_key s') (set_endInVideo frame) (assets st) ->
                a ∈ assets st \/ exists a0, a0 ∈ assets st /\ a = set_endInVideo frame a0).
      { intros a. apply elem_of_update_first. }
      destruct (assetVolumeMap st !! ai_key s') as [volumeChanges|] eqn:Ev.
      * destruct (_ >? _)%num.
        -- apply Hold; [exact Hup|]. intros k vc.
           rewrite lookup_insert. case_decide.
           ++ intros [= <-]. by destruct volumeChanges.
           ++ apply Hv.
        -- by apply Hold.
      * by apply Hold.
    + apply Hold; [by left|exact Hv].
  - (* a new key *)
    pose proof (proj1 (Hk _) Et) as Hnone.
    split; cbn [assets assetTimeMap assetLoopMap assetVolumeMap].
    + by apply scan_inv_keys_step.
    + intros a [Hin|Hin]%elem_of_app.
      * destruct (Ha a Hin) as (s & Hf & Hvs & Hls & Hlm & Htm).
        assert (Hne : ai_key s' <> key a).
        { intros Heq. rewrite Heq in Et. rewrite Et in Htm. by destruct Htm. }
        exists s. rewrite find_snoc, Hf, !lookup_insert_ne by done. done.
      * apply list_elem_of_singleton in Hin as ->. cbn [key volume loop].
        exists s'. rewrite find_snoc, Hnone, bool_decide_eq_true_2 by done.
        rewrite !lookup_insert_eq. split; [done|]. split; [done|]. split; [done|].
        split; [done|]. by eexists.
    + intros k vc. rewrite lookup_insert. case_decide.
      * by intros [= <-].
      * apply Hv.
Qed.

Lemma place_frame_inv (frame : Z) (samples seen : list AssetInfo) (st : placement) :
  scan_inv seen st -> scan_inv (seen ++ samples) (place_frame frame st samples).
Proof.
  unfold place_frame. revert seen st.
  induction samples as [|s samples IH]; intros seen st Hinv; cbn [foldl].
  - by rewrite app_nil_r.
  - rewrite (cons_middle s seen samples), app_assoc.
    apply IH. by apply place_sample_inv.
Qed.

Lemma place_frames_inv (frames : list (list AssetInfo)) (frame : Z)
    (seen : list AssetInfo) (st : placement) :
  scan_inv seen st ->
  scan_inv (seen ++ concat frames) (place_frames frame st frames).
Proof.
  revert frame seen st.
  induction frames as [|samples frames IH]; intros frame seen st Hinv;
    cbn [place_frames concat].
  - by rewrite app_nil_r.
  - rewrite app_assoc. apply IH. by apply place_frame_inv.
Qed.

Lemma getAssetPlacement_scan_inv (frames : list (list AssetInfo)) :
  scan_inv (concat frames) (place_frames 0 placement_empty frames).
Proof. apply (place_frames_inv frames 0 [] _ scan_inv_empty). Qed.

(** The arrays of [assetVolumeMap] are never empty: [last_volume] always
    reads a recorded breakpoint. *)
Lemma assetVolumeMap_nonempty (frames : list (list AssetInfo)) (k : string)
    (vc : list breakpoint) :
  assetVolumeMap (place_frames 0 placement_empty frames) !! k = Some vc -> vc <> [].
Proof. apply (inv_volumes _ _ (getAssetPlacement_scan_inv frames)). Qed.

(** The two final passes keep the key, the base volume, the rate, the type
    and the loop flag of a span. *)
Lemma attach_volumeChanges_fields (st : placement) (a : MediaAsset) :
  let a' := attach_volumeChanges st a in
  key a' = key a /\ volume a' = volume a /\ loop a' = loop a /\
  playbackRate a' = playbackRate a /\ type a' = type a /\ src a' = src a.
Proof.
  unfold attach_volumeChanges. destruct (assetVolumeMap st !! key a); [|done].
  by case_bool_decide.
Qed.

Lemma compute_durations_fields (st : placement) (a : MediaAsset) :
  let a' := compute_durations st a in
  key a' = key a /\ volume a' = volume a /\ loop a' = loop a /\
  playbackRate a' = playbackRate a /\ type a' = type a /\ src a' = src a.
Proof.
  unfold compute_durations. cbn zeta.
  destruct (assetTimeMap st !! key a) as [[t1 t2]|]; cbn [key];
    repeat match goal with
           | |- context [if ?b then _ else _] => destruct b
           end; done.
Qed.

Lemma getAssetPlacement_elem (frames : list (list AssetInfo)) (a : MediaAsset) :
  a ∈ getAssetPlacement frames ->
  let st := place_frames 0 placement_empty frames in
  exists a0, a0 ∈ assets st /\ a = compute_durations st (attach_volumeChanges st a0).
Proof.
  unfold getAssetPlacement. cbn zeta.
  intros (a1 & -> & (a0 & -> & Ha0)%list_elem_of_fmap)%list_elem_of_fmap. eauto.
Qed.

(** Every span carries the base volume and the loop flag of the first sample
    of its key. *)
Lemma getAssetPlacement_first_sample (frames : list (list AssetInfo))
    (a : MediaAsset) (s : AssetInfo) :
  a ∈ getAssetPlacement frames ->
  first_sample (key a) frames = Some s ->
  volume a = ai_volume s /\ loop a = ai_loop s.
Proof.
  intros (a0 & Ha0 & ->)%getAssetPlacement_elem.
  destruct (compute_durations_fields (place_frames 0 placement_empty frames)
              (attach_volumeChanges (place_frames 0 placement_empty frames) a0))
    as (Hk & Hv & Hl & _).
  destruct (attach_volumeChanges_fields (place_frames 0 placement_empty frames) a0)
    as (Hk' & Hv' & Hl' & _).
  cbn zeta in *. rewrite Hk, Hk', Hv, Hv', Hl, Hl'.
  destruct (inv_assets _ _ (getAssetPlacement_scan_inv frames) a0 Ha0)
    as (s0 & Hf & Hvs & Hls & _).
  unfold first_sample. rewrite Hf. by intros [= <-].
Qed.

(** C5.  A span whose loop flag, taken from the first sample of its asset,
    is true carries [Infinity] as its [durationInSeconds]. *)
Theorem looping_span_unbounded (frames : list (list AssetInfo))
    (a : MediaAsset) (s : AssetInfo) :
  a ∈ getAssetPlacement frames ->
  first_sample (key a) frames = Some s ->
  ai_loop s = Some true ->
  loop a = Some true /\ durationInSeconds a = PInf.
Proof.
  intros Hin Hfirst Hloop.
  destruct (getAssetPlacement_first_sample frames a s Hin Hfirst) as [_ Hl].
  split; [by rewrite Hl|].
  apply getAssetPlacement_elem in Hin as (a0 & Ha0 & ->).
  set (st := place_frames 0 placement_empty frames) in *.
  destruct (compute_durations_fields st (attach_volumeChanges st a0)) as (Hk & _).
  destruct (attach_volumeChanges_fields st a0) as (Hk' & _).
  cbn zeta in *. rewrite Hk, Hk' in Hfirst.
  destruct (inv_assets _ _ (getAssetPlacement_scan_inv frames) a0 Ha0)
    as (s0 & Hf & _ & _ & Hlm & [[t1 t2] Htm]).
  unfold first_sample in Hfirst. rewrite Hf in Hfirst. injection Hfirst as ->.
  subst st. unfold compute_durations. rewrite Hk', Htm, Hlm, Hloop. cbn.
  reflexivity.
Qed.

(** The position of the looping asset wraps from 13.8 s to 0.1 s, and its
    span is unbounded. *)
Lemma looping_span_unbounded_witness :
  let a := mkMediaAsset "music" "music.mp3" audio 0 2 3 one one (dec 138 10)
             PInf (Some true) None in
  loop a = Some true /\ durationInSeconds a = PInf.
Proof.
  intros a.
  apply (looping_span_unbounded wrapping_frames a (loopSample (dec 138 10))).
  - apply (bool_decide_unpack (a ∈ getAssetPlacement wrapping_frames)).
    vm_compute. exact I.
  - by_compute.
  - reflexivity.
Defined.

(** ** Settling of [prepareAudio] and [mergeAudioTracks] *)

Lemma run_engine_eq (E : environment) (c : command) (w : world) :
  run_engine E c w =
    (match reported (engine E c (files w)) with
     | None => Resolved tt
     | Some err => Rejected err
     end,
     mkWorld (write_output (command_output c) (produced (engine E c (files w)))
                (files w))
             (trace w ++ [Run c])).
Proof. unfold run_engine. by destruct (reported _). Qed.

(** [prepareAudio] once the sample rate is probed and the tempo chain is
    computed: one run of the engine, and the promise follows its report. *)
Lemma prepareAudio_eq (E : environment) (outputDir tempDir : string)
    (asset : MediaAsset) (startFrame endFrame : Z) (fps sr : num)
    (fs : list filter) (w : world) :
  getSampleRate E (resolvePath E outputDir (src asset)) = Resolved sr ->
  calculateAtempoFilters (playbackRate asset) = Some fs ->
  let cmd := Synthesize (resolvePath E outputDir (src asset))
               (audioFilters asset startFrame endFrame fps sr fs)
               (outputPath tempDir asset) in
  prepareAudio E outputDir tempDir asset startFrame endFrame fps w =
    (match reported (engine E cmd (files w)) with
     | None => Resolved (outputPath tempDir asset)
     | Some err => Rejected err
     end,
     mkWorld (write_output (outputPath tempDir asset)
                (produced (engine E cmd (files w))) (files w))
             (trace w ++ [Run cmd])).
Proof.
  intros Hsr Hfs cmd. unfold prepareAudio, bind, await, ret.
  rewrite Hsr, Hfs, run_engine_eq. fold cmd.
  by destruct (reported _).
Qed.

(** C6, as the source has it.  [prepareAudio] (once the sample rate is
    probed and the tempo chain computed) and [mergeAudioTracks] settle by
    the report of the engine alone: resolved on [end], rejected on [error].
    The bytes that the engine produced play no part. *)
Theorem settle_follows_engine_report (E : environment) (outputDir tempDir : string)
    (asset : MediaAsset) (startFrame endFrame : Z) (fps sr : num)
    (fs : list filter) (audioFilenames : list string) (w : world) :
  getSampleRate E (resolvePath E outputDir (src asset)) = Resolved sr ->
  calculateAtempoFilters (playbackRate asset) = Some fs ->
  let synth := Synthesize (resolvePath E outputDir (src asset))
                 (audioFilters asset startFrame endFrame fps sr fs)
                 (outputPath tempDir asset) in
  let mix := Mix audioFilenames (path_join tempDir "audio.wav") in
  (prepareAudio E outputDir tempDir asset startFrame endFrame fps w).1 =
    match reported (engine E synth (files w)) with
    | None => Resolved (outputPath tempDir asset)
    | Some err => Rejected err
    end /\
  (mergeAudioTracks E tempDir audioFilenames w).1 =
    match reported (engine E mix (files w)) with
    | None => Resolved tt
    | Some err => Rejected err
    end.
Proof.
  intros Hsr Hfs synth mix. split.
  - by rewrite (prepareAudio_eq _ _ _ _ _ _ _ sr fs).
  - unfold mergeAudioTracks. by rewrite run_engine_eq.
Qed.

(** A synthesis and a mix whose engine runs report success. *)
Lemma settle_follows_engine_report_witness :
  (prepareAudio (succeeding riff None) "out" "/tmp/shard" plain_asset 0 30
     (ofZ 30) empty_world).1 = Resolved "/tmp/shard/voice.wav" /\
  (mergeAudioTracks (succeeding riff None) "/tmp/shard" ["/tmp/shard/voice.wav"]
     empty_world).1 = Resolved tt.
Proof.
  apply (settle_follows_engine_report (succeeding riff None) "out" "/tmp/shard"
           plain_asset 0 30 (ofZ 30) (ofZ 44100) []).
  - reflexivity.
  - by_compute.
Defined.

(** C6, as the specification words it, fails: the engine reports success
    and leaves a file of zero bytes; [prepareAudio] resolves with the path
    of that file, and so does [mergeAudioTracks] for the mixed track. *)
Lemma zero_byte_output_resolves :
  let E := succeeding [] None in
  exists w1 w2,
    prepareAudio E "out" "/tmp/shard" plain_asset 0 30 (ofZ 30) empty_world =
      (Resolved "/tmp/shard/voice.wav", w1) /\
    files w1 !! "/tmp/shard/voice.wav" = Some [] /\
    mergeAudioTracks E "/tmp/shard" ["/tmp/shard/voice.wav"] w1 =
      (Resolved tt, w2) /\
    files w2 !! "/tmp/shard/audio.wav" = Some [].
Proof.
  intros E.
  assert (Hfs : calculateAtempoFilters (playbackRate plain_asset) = Some [])
    by by_compute.
  eexists _, _. split.
  { by rewrite (prepareAudio_eq E "out" "/tmp/shard" plain_asset 0 30 (ofZ 30)
                  (ofZ 44100) [] empty_world eq_refl Hfs). }
  split; [by_compute|]. split.
  { unfold mergeAudioTracks. by rewrite run_engine_eq. }
  by_compute.
Qed.

(** ** The loop of [generateAudio] *)

(** One round of the loop either leaves everything as it was, or appends
    exactly one file name. *)
Lemma generateAudio_asset_resolved (E : environment) (outputDir fullTempDir : string)
    (startFrame endFrame : Z) (fps : num) (names names' : list string)
    (asset : MediaAsset) (w w' : world) :
  generateAudio_asset E outputDir fullTempDir startFrame endFrame fps names asset w
    = (Resolved names', w') ->
  (names' = names /\ w' = w) \/ exists p, names' = names ++ [p].
Proof.
  unfold generateAudio_asset, bind. 
  destruct (if bool_decide (type asset <> audio) then _ else _) as [[b| |] w0] eqn:Eprobe;
    [|done..].
  assert (w0 = w) as ->.
  { revert Eprobe. case_bool_decide; unfold await, ret; congruence. }
  destruct (_ && _ && b).
  - destruct (prepareAudio _ _ _ _ _ _ _ w) as [[p| |] w1]; [|done..].
    unfold ret. intros [= <- <-]. right. by exists p.
  - unfold ret. intros [= <- <-]. by left.
Qed.

Lemma generateAudio_loop_resolved (E : environment) (outputDir fullTempDir : string)
    (startFrame endFrame : Z) (fps : num) (assetPositions : list MediaAsset) :
  forall (names names' : list string) (w w' : world),
    generateAudio_loop E outputDir fullTempDir startFrame endFrame fps names
      assetPositions w = (Resolved names', w') ->
    exists extra, names' = names ++ extra /\ (extra = [] -> w' = w).
Proof.
  induction assetPositions as [|asset rest IH]; intros names names' w w'.
  - cbn. unfold ret. intros [= <- <-]. exists []. by rewrite app_nil_r.
  - cbn [generateAudio_loop]. unfold bind at 1.
    destruct (generateAudio_asset _ _ _ _ _ _ names asset w) as [[names1| |] w1] eqn:E1;
      [|done..].
    intros Hrest. apply IH in Hrest as (extra & -> & Hw).
    apply generateAudio_asset_resolved in E1 as [[-> ->]|(p & ->)].
    + by exists extra.
    + exists (p :: extra). rewrite <- app_assoc. split; [done|]. done.
Qed.

(** C9.  The span of an asset whose first sample has volume 0 has base
    volume 0, whatever the later samples record, and the round of the loop
    of [generateAudio] for it changes neither the files nor the trace (the
    engine is not run) and adds no file name. *)
Theorem silent_start_skipped (E : environment) (outputDir fullTempDir : string)
    (startFrame endFrame : Z) (fps : num) (frames : list (list AssetInfo))
    (a : MediaAsset) (s : AssetInfo) (names : list string) (w : world) :
  a ∈ getAssetPlacement frames ->
  first_sample (key a) frames = Some s ->
  ai_volume s = zero ->
  volume a = zero /\
  exists r,
    generateAudio_asset E outputDir fullTempDir startFrame endFrame fps names a w
      = (r, w) /\
    forall names', r = Resolved names' -> names' = names.
Proof.
  intros Hin Hfirst Hzero.
  destruct (getAssetPlacement_first_sample frames a s Hin Hfirst) as [Hv _].
  rewrite Hzero in Hv. split; [exact Hv|].
  unfold generateAudio_asset, bind. rewrite Hv.
  change (zero !=? zero)%num with false. rewrite andb_false_r. cbn [andb].
  case_bool_decide; unfold await, ret.
  - destruct (checkForAudioStream E _) as [b| |]; eexists; (split; [done|]);
      by intros ? [= <-].
  - eexists. split; [done|]. by intros ? [= <-].
Qed.

(** The asset starts at volume 0 and is raised to 0.5 and then to 1; its
    envelope rises, and it is skipped. *)
Lemma silent_start_skipped_witness :
  volume rising_asset = zero /\
  exists r,
    generateAudio_asset (succeeding riff None) "out" "/tmp/shard" 0 3 (ofZ 30) []
      rising_asset empty_world = (r, empty_world) /\
    forall names', r = Resolved names' -> names' = [].
Proof.
  apply (silent_start_skipped (succeeding riff None) "out" "/tmp/shard" 0 3 (ofZ 30)
           rising_frames rising_asset (risingSample zero zero) [] empty_world).
  - apply (bool_decide_unpack (rising_asset ∈ getAssetPlacement rising_frames)).
    vm_compute. exact I.
  - by_compute.
  - reflexivity.
Defined.

(** ** [mergeMedia] *)

Lemma mergeMedia_cleanup_eq (E : environment) (fullTempDir : string) (w : world) :
  mergeMedia_cleanup E fullTempDir w =
    (Resolved tt,
     if ends_with "-undefined" fullTempDir
     then mkWorld
            (match rm_error E fullTempDir (files w) with
             | None => base.filter (fun kv => inside fullTempDir kv.1 = false) (files w)
             | Some _ => files w
             end)
            (trace w ++ [Rm fullTempDir])
     else w).
Proof.
  unfold mergeMedia_cleanup. destruct (ends_with _ _); [|done].
  unfold catch_ignore, rm. by destruct (rm_error _ _ _).
Qed.

(** C7.  When [generateAudio] resolves with no file name in a shard
    directory that holds the visual container and no [audio.wav], it has
    changed nothing (the engine was not run, no mixed file exists), and
    [mergeMedia] resolves after one [copyFile] of the visual container to
    the final path, without any run of the engine; the final path holds the
    bytes of the visual container. *)
Theorem no_segments_copy (E : environment)
    (outputFilename outputDir tempDir : string)
    (frames : list (list AssetInfo)) (startFrame endFrame : Z) (fps : num)
    (fmt : format) (w w1 : world) (c : content) :
  let fullTempDir := path_join (tmpdir E) tempDir in
  let visuals := path_join fullTempDir ("visuals." +:+ extensions E fmt) in
  let destination :=
    path_join outputDir (outputFilename +:+ "." +:+ extensions E fmt) in
  files w !! path_join fullTempDir "audio.wav" = None ->
  files w !! visuals = Some c ->
  generateAudio E outputDir tempDir frames startFrame endFrame fps w
    = (Resolved [], w1) ->
  w1 = w /\
  mergeMedia_merge E outputFilename outputDir fullTempDir fmt w1 =
    (Resolved tt,
     mkWorld (<[destination := c]> (files w))
             (trace w ++ [CopyFile visuals destination])) /\
  exists w2,
    mergeMedia E outputFilename outputDir tempDir fmt w1 = (Resolved tt, w2) /\
    trace w2 =
      trace w ++ [CopyFile visuals destination] ++
      (if ends_with "-undefined" fullTempDir then [Rm fullTempDir] else []) /\
    (inside fullTempDir destination = false -> files w2 !! destination = Some c).
Proof.
  intros fullTempDir visuals destination Haudio Hvis Hgen.
  unfold generateAudio in Hgen. fold fullTempDir in Hgen.
  unfold bind at 1, await at 1 in Hgen.
  destruct (makeSureFolderExists E outputDir) as [[]| |] eqn:Eout; [|done..].
  unfold bind at 1, await at 1 in Hgen.
  destruct (makeSureFolderExists E fullTempDir) as [[]| |] eqn:Etmp; [|done..].
  unfold bind at 1 in Hgen.
  destruct (generateAudio_loop _ _ _ _ _ _ _ _ w) as [[names| |] w0] eqn:Eloop;
    [|done..].
  assert (names = [] /\ w1 = w0) as [-> ->].
  { revert Hgen. unfold bind, ret. case_bool_decide.
    - destruct (mergeAudioTracks _ _ _ _) as [[[]| |] ?]; [|done..].
      intros [= Hn Hw]. subst. cbn in *. lia.
    - intros [= Hn Hw]. by subst. }
  apply generateAudio_loop_resolved in Eloop as (extra & Hextra & Hw).
  destruct extra; [|done]. specialize (Hw eq_refl) as ->.
  assert (Hmerge :
    mergeMedia_merge E outputFilename outputDir fullTempDir fmt w =
      (Resolved tt,
       mkWorld (<[destination := c]> (files w))
               (trace w ++ [CopyFile visuals destination]))).
  { unfold mergeMedia_merge, existsSync. rewrite Haudio.
    rewrite bool_decide_eq_false_2 by (by intros [? ?]).
    unfold copyFile. fold visuals. by rewrite Hvis. }
  split; [done|]. split; [exact Hmerge|].
  eexists. split.
  { unfold mergeMedia. fold fullTempDir.
    unfold bind at 1, await at 1. rewrite Eout.
    unfold bind at 1, await at 1. rewrite Etmp.
    unfold bind. rewrite Hmerge, mergeMedia_cleanup_eq. reflexivity. }
  destruct (ends_with "-undefined" fullTempDir); cbn [trace files].
  - split; [by rewrite <- app_assoc|]. intros Hout.
    destruct (rm_error E fullTempDir _).
    + by rewrite lookup_insert_eq.
    + apply map_lookup_filter_Some. split; [by rewrite lookup_insert_eq|exact Hout].
  - split; [by rewrite app_nil_r|]. intros _. by rewrite lookup_insert_eq.
Qed.

(** The only asset of the shard starts silent, so no segment is produced
    and the visual container is copied. *)
Lemma no_segments_copy_witness :
  let w := rendered_world "shard-1" in
  w = w /\
  mergeMedia_merge (succeeding riff None) "video" "out" "/tmp/shard-1" mp4 w =
    (Resolved tt,
     mkWorld (<["out/video.mp4" := riff]> (files w))
             (trace w ++ [CopyFile "/tmp/shard-1/visuals.mp4" "out/video.mp4"])) /\
  exists w2,
    mergeMedia (succeeding riff None) "video" "out" "shard-1" mp4 w
      = (Resolved tt, w2) /\
    trace w2 =
      trace w ++ [CopyFile "/tmp/shard-1/visuals.mp4" "out/video.mp4"] ++
      (if ends_with "-undefined" "/tmp/shard-1" then [Rm "/tmp/shard-1"] else []) /\
    (inside "/tmp/shard-1" "out/video.mp4" = false ->
     files w2 !! "out/video.mp4" = Some riff).
Proof.
  intros w.
  apply (no_segments_copy (succeeding riff None) "video" "out" "shard-1"
           rising_frames 0 3 (ofZ 30) mp4 w w riff).
  - by_compute.
  - by_compute.
  - by_compute.
Defined.

(** C8, as the source has it.  Once the merge step of [mergeMedia] has
    resolved, [mergeMedia] resolves.  When the name of the temporary
    directory does not end in [-undefined], no removal is attempted and the
    world is the one the merge step left; when it does, one recursive
    removal is attempted, and its failure is swallowed. *)
Theorem cleanup_only_marked (E : environment)
    (outputFilename outputDir tempDir : string) (fmt : format) (w wm : world) :
  let fullTempDir := path_join (tmpdir E) tempDir in
  makeSureFolderExists E outputDir = Resolved tt ->
  makeSureFolderExists E fullTempDir = Resolved tt ->
  mergeMedia_merge E outputFilename outputDir fullTempDir fmt w = (Resolved tt, wm) ->
  exists w',
    mergeMedia E outputFilename outputDir tempDir fmt w = (Resolved tt, w') /\
    (ends_with "-undefined" fullTempDir = false -> w' = wm) /\
    (ends_with "-undefined" fullTempDir = true ->
     trace w' = trace wm ++ [Rm fullTempDir] /\
     files w' =
       match rm_error E fullTempDir (files wm) with
       | None => base.filter (fun kv => inside fullTempDir kv.1 = false) (files wm)
       | Some _ => files wm
       end).
Proof.
  intros fullTempDir Hout Htmp Hmerge. eexists. split.
  { unfold mergeMedia. fold fullTempDir.
    unfold bind at 1, await at 1. rewrite Hout.
    unfold bind at 1, await at 1. rewrite Htmp.
    unfold bind. rewrite Hmerge, mergeMedia_cleanup_eq. reflexivity. }
  destruct (ends_with "-undefined" fullTempDir); split; try done.
Qed.

(** The directory is marked, its removal fails with [EPERM], and
    [mergeMedia] resolves all the same. *)
Lemma cleanup_only_marked_witness :
  let E := succeeding riff (Some "EPERM") in
  let w := rendered_world "revideo-undefined" in
  let wm := mkWorld (<["out/video.mp4" := riff]> (files w))
              [CopyFile "/tmp/revideo-undefined/visuals.mp4" "out/video.mp4"] in
  exists w',
    mergeMedia E "video" "out" "revideo-undefined" mp4 w = (Resolved tt, w') /\
    (ends_with "-undefined" "/tmp/revideo-undefined" = false -> w' = wm) /\
    (ends_with "-undefined" "/tmp/revideo-undefined" = true ->
     trace w' = trace wm ++ [Rm "/tmp/revideo-undefined"] /\
     files w' =
       match rm_error E "/tmp/revideo-undefined" (files wm) with
       | None =>
           base.filter (fun kv => inside "/tmp/revideo-undefined" kv.1 = false)
             (files wm)
       | Some _ => files wm
       end).
Proof.
  intros E w wm.
  apply (cleanup_only_marked E "video" "out" "revideo-undefined" mp4 w wm).
  - reflexivity.
  - reflexivity.
  - by_compute.
Defined.

(** C8, as the specification words it, fails: for a directory without the
    marker [mergeMedia] resolves without attempting any removal; the files
    of the directory are still there, and the failure that a removal would
    have met is not raised. *)
Lemma unmarked_directory_kept :
  let E := succeeding riff (Some "EPERM") in
  let w := rendered_world "shard-1" in
  ends_with "-undefined" (path_join (tmpdir E) "shard-1") = false /\
  exists w',
    mergeMedia E "video" "out" "shard-1" mp4 w = (Resolved tt, w') /\
    (Rm "/tmp/shard-1" ∉ trace w') /\
    files w' !! "/tmp/shard-1/visuals.mp4" = Some riff.
Proof.
  intros E w. split; [reflexivity|].
  exists (mkWorld (<["out/video.mp4" := riff]> (files w))
            [CopyFile "/tmp/shard-1/visuals.mp4" "out/video.mp4"]).
  split; [by_compute|]. split; [|by_compute].
  cbn [trace]. intros Hin. apply list_elem_of_singleton in Hin. discriminate.
Qed.

(** ** Output paths *)

Lemma string_app_length (s t : string) :
  String.length (s +:+ t) = (String.length s + String.length t)%nat.
Proof. induction s as [|c s IH]; simpl; [done|]. by f_equal. Qed.

Lemma string_app_inv_tail (s1 s2 t : string) : s1 +:+ t = s2 +:+ t -> s1 = s2.
Proof.
  revert s2. induction s1 as [|c s1 IH]; intros [|d s2]; [done| | |].
  - intros H. apply (f_equal String.length) in H.
    rewrite !string_app_length in H. cbn in H. lia.
  - intros H. apply (f_equal String.length) in H.
    rewrite !string_app_length in H. cbn in H. lia.
  - cbn. intros [= -> H]. f_equal. by apply IH.
Qed.

Lemma outputPath_inj (tempDir : string) (a1 a2 : MediaAsset) :
  outputPath tempDir a1 = outputPath tempDir a2 <->
  sanitize (key a1) = sanitize (key a2).
Proof.
  unfold outputPath, path_join. split; [|by intros ->].
  intros H. apply String.app_inj in H. apply String.app_inj in H.
  by apply string_app_inv_tail in H.
Qed.

(** A resolved [prepareAudio] has run the engine once, on its output path. *)
Lemma prepareAudio_resolved (E : environment) (outputDir tempDir : string)
    (asset : MediaAsset) (startFrame endFrame : Z) (fps : num)
    (w w' : world) (p : string) :
  prepareAudio E outputDir tempDir asset startFrame endFrame fps w = (Resolved p, w') ->
  p = outputPath tempDir asset /\
  exists cmd,
    command_output cmd = p /\
    trace w' = trace w ++ [Run cmd] /\
    files w' = write_output p (produced (engine E cmd (files w))) (files w).
Proof.
  unfold prepareAudio, bind, await.
  destruct (getSampleRate E _) as [sr| |]; [|done..].
  destruct (calculateAtempoFilters _) as [fs|]; [|done].
  rewrite run_engine_eq. destruct (reported _); [done|].
  unfold ret. intros [= <- <-]. split; [done|].
  eexists. split; [|split; [reflexivity|]]; reflexivity.
Qed.

(** C10.  The paths of two synthesized segments are equal exactly when the
    keys of their assets are equal after every [/], [[] and []] is replaced
    by [-]; when they are, the second synthesis runs the engine on the path
    of the first, and the bytes it produces replace those of the first. *)
Theorem sanitized_key_collision (E : environment) (outputDir tempDir : string)
    (a1 a2 : MediaAsset) (startFrame endFrame : Z) (fps : num)
    (w w1 w2 : world) (p1 p2 : string) :
  prepareAudio E outputDir tempDir a1 startFrame endFrame fps w = (Resolved p1, w1) ->
  prepareAudio E outputDir tempDir a2 startFrame endFrame fps w1 = (Resolved p2, w2) ->
  p1 = path_join tempDir (sanitize (key a1) +:+ ".wav") /\
  p2 = path_join tempDir (sanitize (key a2) +:+ ".wav") /\
  (p1 = p2 <-> sanitize (key a1) = sanitize (key a2)) /\
  (sanitize (key a1) = sanitize (key a2) ->
   exists cmd,
     trace w2 = trace w1 ++ [Run cmd] /\
     command_output cmd = p1 /\
     files w2 !! p1 =
       match produced (engine E cmd (files w1)) with
       | Some c => Some c
       | None => files w1 !! p1
       end).
Proof.
  intros (-> & _)%prepareAudio_resolved (-> & cmd & Hcmd & Htr & Hfs)%prepareAudio_resolved.
  split; [done|]. split; [done|]. split; [apply outputPath_inj|].
  intros Hsan. apply (outputPath_inj tempDir) in Hsan.
  exists cmd. rewrite Hsan. split; [done|]. split; [done|].
  rewrite Hfs. unfold write_output. destruct (produced _); [|done].
  by rewrite lookup_insert_eq.
Qed.

(** The keys [a/b] and [a-b] give the same path, and the second segment
    replaces the first. *)
Lemma sanitized_key_collision_witness :
  let w1 := (prepareAudio echoing "out" "/tmp/shard" slash_asset 0 30 (ofZ 30)
               empty_world).2 in
  let w2 := (prepareAudio echoing "out" "/tmp/shard" dash_asset 0 30 (ofZ 30) w1).2 in
  let p := "/tmp/shard/a-b.wav" in
  p = path_join "/tmp/shard" (sanitize "a/b" +:+ ".wav") /\
  p = path_join "/tmp/shard" (sanitize "a-b" +:+ ".wav") /\
  (p = p <-> sanitize "a/b" = sanitize "a-b") /\
  (sanitize "a/b" = sanitize "a-b" ->
   exists cmd,
     trace w2 = trace w1 ++ [Run cmd] /\
     command_output cmd = p /\
     files w2 !! p =
       match produced (engine echoing cmd (files w1)) with
       | Some c => Some c
       | None => files w1 !! p
       end).
Proof.
  intros w1 w2 p.
  apply (sanitized_key_collision echoing "out" "/tmp/shard" slash_asset dash_asset
           0 30 (ofZ 30) empty_world w1 w2 p p).
  - by_compute.
  - by_compute.
Defined.

(** The segment of [a/b] is lost: after both syntheses the path holds the
    bytes written for [a-b]. *)
Lemma sanitized_key_collision_example :
  sanitize "a/b" = "a-b" /\ sanitize "x[0]" = "x-0-" /\
  let w1 := (prepareAudio echoing "out" "/tmp/shard" slash_asset 0 30 (ofZ 30)
               empty_world).2 in
  let w2 := (prepareAudio echoing "out" "/tmp/shard" dash_asset 0 30 (ofZ 30) w1).2 in
  files w1 !! "/tmp/shard/a-b.wav" = Some (list_byte_of_string "out/one.mp3") /\
  files w2 !! "/tmp/shard/a-b.wav" = Some (list_byte_of_string "out/two.mp3").
Proof. repeat split; by_compute. Qed.

(** The string helpers on the names used above. *)
Lemma ends_with_examples :
  ends_with "-undefined" "/tmp/revideo-undefined" = true /\
  ends_with "-undefined" "/tmp/shard-1" = false /\
  ends_with "-undefined" "undefined" = false /\
  inside "/tmp/shard-1" "/tmp/shard-1/visuals.mp4" = true /\
  inside "/tmp/shard-1" "/tmp/shard-10/visuals.mp4" = false /\
  inside "/tmp/shard-1" "out/video.mp4" = false.
Proof. repeat split; reflexivity. Qed.

(** * Further properties *)

(** ** [getAssetPlacement] as one scan per key *)

Lemma find_asset_key (k : string) (l : list MediaAsset) (a : MediaAsset) :
  find_asset k l = Some a -> key a = k /\ a ∈ l.
Proof.
  unfold find_asset. induction l as [|b l IH]; cbn; [done|].
  case_bool_decide.
  - intros [= <-]. split; [done|apply list_elem_of_here].
  - intros H'. destruct (IH H') as [? ?]. split; [done|by apply list_elem_of_further].
Qed.

Lemma find_asset_None (k : string) (l : list MediaAsset) :
  find_asset k l = None <-> k ∉ key <$> l.
Proof.
  unfold find_asset. induction l as [|b l IH]; cbn.
  - split; [|done]. intros _ H. by apply elem_of_nil in H.
  - case_bool_decide as Hb.
    + split; [done|]. intros H. exfalso. apply H. rewrite Hb. apply list_elem_of_here.
    + rewrite IH, not_elem_of_cons. split; [by intros ?; split; [congruence|]|by intros [_ ?]].
Qed.

Lemma find_asset_snoc (k : string) (l : list MediaAsset) (a : MediaAsset) :
  find_asset k (l ++ [a]) =
    match find_asset k l with
    | Some b => Some b
    | None => if bool_decide (key a = k) then Some a else None
    end.
Proof. unfold find_asset. exact (find_snoc _ l a). Qed.

Lemma find_asset_update_first (k k' : string) (f : MediaAsset -> MediaAsset)
    (l : list MediaAsset) :
  (forall a, key (f a) = key a) ->
  find_asset k' (update_first k f l) =
    if bool_decide (k = k') then f <$> find_asset k' l else find_asset k' l.
Proof.
  intros Hf. unfold find_asset. destruct (decide (k = k')) as [<-|Hne].
  - rewrite bool_decide_eq_true_2 by done.
    induction l as [|b l IH]; cbn [update_first List.find]; [done|].
    destruct (bool_decide (key b = k)) eqn:Hb; cbn [List.find].
    + by rewrite Hf, Hb.
    + by rewrite Hb, IH.
  - rewrite bool_decide_eq_false_2 by done.
    induction l as [|b l IH]; cbn [update_first List.find]; [done|].
    case_bool_decide as Hb; cbn [List.find].
    + rewrite Hf. rewrite !bool_decide_eq_false_2 by congruence. done.
    + by rewrite IH.
Qed.

Lemma keys_update_first (k : string) (f : MediaAsset -> MediaAsset)
    (l : list MediaAsset) :
  (forall a, key (f a) = key a) ->
  key <$> update_first k f l = key <$> l.
Proof.
  intros Hf. induction l as [|b l IH]; cbn; [done|].
  case_bool_decide; cbn; [by rewrite Hf|by rewrite IH].
Qed.

(** The loop body changes the view of the key of its sample, by
    [track_next], and of no other key; it keeps the state coherent. *)
Lemma place_sample_view (frame : Z) (st : placement) (s : AssetInfo) :
  coherent st ->
  coherent (place_sample frame st s) /\
  forall k,
    view k (place_sample frame st s) =
      if bool_decide (ai_key s = k) then track_next (view k st) (frame, s)
      else view k st.
Proof.
  intros Hco. unfold place_sample.
  destruct (assetTimeMap st !! ai_key s) as [timeInfo|] eqn:Et.
  - (* the key is known: its view is complete *)
    destruct (proj2 (Hco (ai_key s))) as [tr Htr]; [by rewrite Et|].
    unfold view in Htr. rewrite Et in Htr.
    destruct (find_asset (ai_key s) (assets st)) as [a0|] eqn:Ea; [|done].
    destruct (assetLoopMap st !! ai_key s) as [l0|] eqn:El; [|done].
    destruct (assetVolumeMap st !! ai_key s) as [v0|] eqn:Ev; [|done].
    injection Htr as <-.
    set (vm := if (_ >? _)%num then _ else _).
    assert (Hview : forall k,
      view k (mkPlacement (update_first (ai_key s) (set_endInVideo frame) (assets st))
                (<[ai_key s := (timeInfo.1, ai_currentTime s)]> (assetTimeMap st))
                (assetLoopMap st)
                (if (abs (ai_volume s - last_volume v0) >? dec 1 1000)%num
                 then <[ai_key s := v0 ++ [(frame - startInVideo a0, ai_volume s)]]>
                        (assetVolumeMap st)
                 else assetVolumeMap st)) =
        if bool_decide (ai_key s = k)
        then track_next (view k st) (frame, s) else view k st).
    { intros k. unfold view at 1. cbn [assets assetTimeMap assetLoopMap assetVolumeMap].
      rewrite find_asset_update_first by done.
      case_bool_decide as Hk.
      - subst k. unfold view. rewrite Ea, Et, El, Ev, lookup_insert_eq.
        unfold track_next, track_step.
        cbn [fmap option_fmap option_map tr_asset tr_times tr_loop tr_volumes fst snd].
        destruct (_ >? _)%num; by rewrite ?lookup_insert_eq, ?Ev.
      - unfold view. rewrite lookup_insert_ne by done.
        destruct (_ >? _)%num; by rewrite ?lookup_insert_ne. }
    assert (Heq : vm =
      mkPlacement (update_first (ai_key s) (set_endInVideo frame) (assets st))
        (<[ai_key s := (timeInfo.1, ai_currentTime s)]> (assetTimeMap st))
        (assetLoopMap st)
        (if (abs (ai_volume s - last_volume v0) >? dec 1 1000)%num
         then <[ai_key s := v0 ++ [(frame - startInVideo a0, ai_volume s)]]>
                (assetVolumeMap st)
         else assetVolumeMap st)).
    { subst vm. by destruct (_ >? _)%num. }
    rewrite Heq. clear vm Heq. split; [|exact Hview].
    intros k. split.
    + cbn [assets assetTimeMap]. rewrite find_asset_update_first by done.
      rewrite lookup_insert. case_decide as Hk; [by eexists|].
      rewrite bool_decide_eq_false_2 by done. apply (Hco k).
    + cbn [assetTimeMap]. rewrite Hview. case_bool_decide as Hk; [by eexists|].
      rewrite lookup_insert_ne by done. apply (Hco k).
  - (* a new key: no element of [assets] has it *)
    assert (Hnone : find_asset (ai_key s) (assets st) = None).
    { destruct (find_asset _ _) eqn:Ea; [|done].
      destruct (proj1 (Hco (ai_key s))) as [? Hx]; [by rewrite Ea|]. congruence. }
    assert (Hview : forall k,
      view k (mkPlacement
                (assets st ++
                   [mkMediaAsset (ai_key s) (ai_src s) (ai_type s) frame frame 0
                      (ai_playbackRate s) (ai_volume s) (ai_currentTime s) zero
                      (ai_loop s) None])
                (<[ai_key s := (ai_currentTime s, ai_currentTime s)]> (assetTimeMap st))
                (<[ai_key s := default false (ai_loop s)]> (assetLoopMap st))
                (<[ai_key s := [(0, ai_volume s)]]> (assetVolumeMap st))) =
        if bool_decide (ai_key s = k)
        then track_next (view k st) (frame, s) else view k st).
    { intros k. unfold view at 1. cbn [assets assetTimeMap assetLoopMap assetVolumeMap].
      rewrite find_asset_snoc. cbn [key]. case_bool_decide as Hk.
      - subst k. rewrite Hnone, !lookup_insert_eq.
        unfold view. by rewrite Hnone.
      - unfold view. rewrite !lookup_insert_ne by done.
        by destruct (find_asset k (assets st)). }
    split; [|exact Hview].
    intros k. split.
    + cbn [assets assetTimeMap]. rewrite find_asset_snoc. cbn [key].
      rewrite lookup_insert. case_decide as Hk; [by eexists|].
      rewrite bool_decide_eq_false_2 by done.
      destruct (find_asset k (assets st)) eqn:Ea; [|by intros [? ?]].
      intros _. apply (Hco k). by rewrite Ea.
    + cbn [assetTimeMap]. rewrite Hview. case_bool_decide as Hk; [by eexists|].
      rewrite lookup_insert_ne by done. apply (Hco k).
Qed.

Lemma place_frame_view (frame : Z) (samples : list AssetInfo) (st : placement) :
  coherent st ->
  coherent (place_frame frame st samples) /\
  forall k,
    view k (place_frame frame st samples) =
      foldl track_next (view k st)
        ((fun s => (frame, s)) <$>
           List.filter (fun s => bool_decide (ai_key s = k)) samples).
Proof.
  unfold place_frame. revert st.
  induction samples as [|s samples IH]; intros st Hco; cbn [foldl List.filter]; [done|].
  destruct (place_sample_view frame st s Hco) as [Hco' Hv].
  destruct (IH _ Hco') as [Hco'' Hv']. split; [exact Hco''|].
  intros k. rewrite Hv', Hv. by case_bool_decide.
Qed.

Lemma place_frames_view (frames : list (list AssetInfo)) (frame : Z) (st : placement) :
  coherent st ->
  coherent (place_frames frame st frames) /\
  forall k,
    view k (place_frames frame st frames) =
      foldl track_next (view k st) (key_samples k frame frames).
Proof.
  revert frame st.
  induction frames as [|samples frames IH]; intros frame st Hco;
    cbn [place_frames key_samples]; [done|].
  destruct (place_frame_view frame samples st Hco) as [Hco' Hv].
  destruct (IH (frame + 1) _ Hco') as [Hco'' Hv']. split; [exact Hco''|].
  intros k. by rewrite Hv', Hv, foldl_app.
Qed.

Lemma coherent_empty : coherent placement_empty.
Proof. intros k. cbn. rewrite lookup_empty. split; by intros [? ?]. Qed.

(** The scan of all frames, seen from one key, is the scan of the samples of
    that key. *)
Lemma getAssetPlacement_view (frames : list (list AssetInfo)) (k : string) :
  view k (place_frames 0 placement_empty frames) =
    foldl track_next None (key_samples k 0 frames).
Proof.
  destruct (place_frames_view frames 0 _ coherent_empty) as [_ Hv]. by rewrite Hv.
Qed.

(** No two elements of [assets] have the same key. *)
Lemma place_sample_NoDup (frame : Z) (st : placement) (s : AssetInfo) :
  coherent st -> NoDup (key <$> assets st) ->
  NoDup (key <$> assets (place_sample frame st s)).
Proof.
  intros Hco Hnd. unfold place_sample.
  destruct (assetTimeMap st !! ai_key s) as [timeInfo|] eqn:Et.
  - destruct (find_asset _ _); [|done].
    destruct (assetVolumeMap st !! _); [|by cbn; rewrite keys_update_first].
    destruct (_ >? _)%num; by cbn; rewrite keys_update_first.
  - cbn [assets]. rewrite fmap_app. cbn. apply NoDup_app. split; [done|].
    split; [|apply NoDup_singleton].
    intros k Hk ->%list_elem_of_singleton.
    apply find_asset_None in Hk; [done|].
    destruct (find_asset (ai_key s) (assets st)) eqn:Ea; [|done].
    destruct (proj1 (Hco (ai_key s))) as [? Hx]; [by rewrite Ea|]. congruence.
Qed.

Lemma place_frames_NoDup (frames : list (list AssetInfo)) (frame : Z) (st : placement) :
  coherent st -> NoDup (key <$> assets st) ->
  NoDup (key <$> assets (place_frames frame st frames)).
Proof.
  revert frame st.
  induction frames as [|samples frames IH]; intros frame st Hco Hnd;
    cbn [place_frames]; [done|].
  apply IH; [by apply place_frame_view|].
  unfold place_frame. clear IH. revert st Hco Hnd.
  induction samples as [|s samples IH]; intros st Hco Hnd; cbn [foldl]; [done|].
  apply IH; [by apply place_sample_view|by apply place_sample_NoDup].
Qed.

Lemma find_asset_NoDup (l : list MediaAsset) (a : MediaAsset) :
  NoDup (key <$> l) -> a ∈ l -> find_asset (key a) l = Some a.
Proof.
  unfold find_asset. induction l as [|b l IH]; intros Hnd Ha; [by apply elem_of_nil in Ha|].
  cbn in *. apply NoDup_cons in Hnd as [Hb Hnd].
  apply elem_of_cons in Ha as [->|Ha].
  - by rewrite bool_decide_eq_true_2.
  - rewrite bool_decide_eq_false_2; [by apply IH|].
    intros Heq. apply Hb. rewrite Heq. by apply list_elem_of_fmap_2.
Qed.

(** A span of the result is what the final passes make of the view of its
    key, and every key with a view has its span. *)
Lemma getAssetPlacement_finish (frames : list (list AssetInfo)) (a : MediaAsset) :
  a ∈ getAssetPlacement frames <->
  exists tr,
    foldl track_next None (key_samples (key a) 0 frames) = Some tr /\
    a = finish tr.
Proof.
  set (st := place_frames 0 placement_empty frames).
  destruct (place_frames_view frames 0 _ coherent_empty) as [Hco _].
  pose proof (getAssetPlacement_view frames) as Hv.
  pose proof (place_frames_NoDup frames 0 _ coherent_empty (NoDup_nil_2 : NoDup (key <$> []))) as Hnd.
  fold st in Hco, Hv, Hnd.
  assert (Hfin : forall a0 tr, view (key a0) st = Some tr -> tr_asset tr = a0 ->
            compute_durations st (attach_volumeChanges st a0) = finish tr /\
            key (finish tr) = key a0).
  { intros a0 tr Hview <-. unfold view in Hview.
    destruct (find_asset _ _) as [a1|]; [|done].
    destruct (assetTimeMap st !! _) as [[t1 t2]|] eqn:Et; [|done].
    destruct (assetLoopMap st !! _) as [l0|] eqn:El; [|done].
    destruct (assetVolumeMap st !! _) as [v0|] eqn:Ev; [|done].
    injection Hview as <-. cbn [tr_asset] in *.
    assert (Hatt : attach_volumeChanges st a1 =
              if bool_decide (1 < Z.of_nat (length v0))
              then set_volumeChanges v0 a1 else a1).
    { unfold attach_volumeChanges. by rewrite Ev. }
    assert (Hk : key (attach_volumeChanges st a1) = key a1).
    { rewrite Hatt. by case_bool_decide. }
    unfold finish, compute_durations.
    cbn [tr_asset tr_times tr_loop tr_volumes fst snd].
    rewrite Hk, Et, El, <- Hatt. cbn [default].
    split; [done|].
    repeat match goal with
           | |- context [if ?b then _ else _] => destruct b
           end; cbn; by rewrite ?Hk. }
  split.
  - intros (a0 & Ha0 & ->)%getAssetPlacement_elem. fold st in Ha0 |- *.
    destruct (proj2 (Hco (key a0))) as [tr Htr].
    { apply (proj1 (Hco (key a0))). by rewrite (find_asset_NoDup _ _ Hnd Ha0). }
    assert (Hta : tr_asset tr = a0).
    { unfold view in Htr. rewrite (find_asset_NoDup _ _ Hnd Ha0) in Htr.
      repeat case_match; try done. by injection Htr as <-. }
    destruct (Hfin a0 tr Htr Hta) as [Hf Hk].
    exists tr. rewrite Hf, Hk. by rewrite <- Hv.
  - intros (tr & Hfold & ->). rewrite <- Hv in Hfold.
    assert (Hview := Hfold). unfold view in Hview.
    destruct (find_asset _ _) as [a1|] eqn:Ea; [|done].
    apply find_asset_key in Ea as [Hk1 Hin].
    assert (Hta : tr_asset tr = a1) by (repeat case_match; try done; by injection Hview as <-).
    rewrite <- Hk1 in Hfold.
    destruct (Hfin a1 tr Hfold Hta) as [Hf _]. rewrite <- Hf.
    unfold getAssetPlacement. fold st.
    apply list_elem_of_fmap_2, list_elem_of_fmap_2, Hin.
Qed.

(** ** The scan of one key *)

Lemma last_cons_default {A : Type} (r : list A) (c p : A) :
  List.last (c :: r) p = List.last r c.
Proof.
  revert c p. induction r as [|d r IH]; intros c p; [done|].
  change (List.last (c :: d :: r) p) with (List.last (d :: r) p).
  by rewrite !IH.
Qed.

Lemma last_snoc {A : Type} (r : list A) (y d : A) : List.last (r ++ [y]) d = y.
Proof. apply List.last_last. Qed.

Lemma last_elem_of {A : Type} (r : list A) (d : A) :
  List.last r d ∈ d :: r.
Proof.
  revert d. induction r as [|c r IH]; intros d; [apply list_elem_of_here|].
  rewrite last_cons_default. apply list_elem_of_further, IH.
Qed.

Lemma envelope_ok_mono (b b' : Z) (p : breakpoint) (r : list breakpoint) :
  b <= b' -> envelope_ok b p r -> envelope_ok b' p r.
Proof.
  intros Hb. revert p. induction r as [|c r IH]; intros p; cbn; [done|].
  intros (Hc & Hd & Hr). split; [lia|]. split; [done|]. by apply IH.
Qed.

Lemma envelope_ok_snoc (b : Z) (p : breakpoint) (r : list breakpoint) (c : breakpoint) :
  envelope_ok b p r ->
  fst (List.last r p) <= fst c <= b ->
  (abs (snd c - snd (List.last r p)) >? dec 1 1000)%num = true ->
  envelope_ok b p (r ++ [c]).
Proof.
  revert p. induction r as [|d r IH]; intros p; cbn [app envelope_ok].
  - intros _ Hc Hd. done.
  - rewrite last_cons_default. intros (Hd1 & Hd2 & Hr) Hc Hv.
    split; [done|]. split; [done|]. by apply IH.
Qed.

Lemma envelope_ok_last (b : Z) (p : breakpoint) (r : list breakpoint) :
  envelope_ok b p r -> fst p <= b ->
  fst p <= fst (List.last r p) <= b.
Proof.
  revert p. induction r as [|d r IH]; intros p; cbn [envelope_ok]; [cbn; lia|].
  rewrite last_cons_default. intros (Hd1 & Hd2 & Hr) Hp.
  specialize (IH d Hr). lia.
Qed.

(** After the samples [first :: rest] of a key, in frame order, the scan
    holds for it what [track_spec] says. *)
Lemma track_fold_spec (first : Z * AssetInfo) (rest : list (Z * AssetInfo)) :
  StronglySorted Z.le (fst <$> first :: rest) ->
  exists tr,
    foldl track_next None (first :: rest) = Some tr /\ track_spec first rest tr.
Proof.
  induction rest as [|y rest IH] using rev_ind; intros Hs.
  - eexists. split; [reflexivity|]. split; try reflexivity.
    exists []. split; [reflexivity|exact I].
  - rewrite app_comm_cons, fmap_app in Hs.
    apply StronglySorted_app in Hs as (Hle & Hs & _).
    destruct (IH Hs) as (tr & Hfold & Hspec).
    assert (Hlast : (List.last rest first).1 <= y.1).
    { apply Hle; [|cbn; apply list_elem_of_here].
      apply list_elem_of_fmap_2, last_elem_of. }
    assert (Hfirst : first.1 <= (List.last rest first).1).
    { cbn in Hs. apply StronglySorted_cons in Hs as [Hall _].
      pose proof (last_elem_of rest first) as Hin.
      apply elem_of_cons in Hin as [Heq|Hin]; [rewrite Heq; lia|].
      rewrite Forall_forall in Hall. apply Hall. by apply list_elem_of_fmap_2. }
    exists (track_step y.1 y.2 tr).
    rewrite app_comm_cons, foldl_app, Hfold. split; [reflexivity|].
    destruct Hspec. destruct ts_envelope0 as (vrest & Hvol & Henv).
    split; rewrite ?last_snoc; unfold track_step, set_endInVideo;
      cbn [tr_asset tr_times tr_loop tr_volumes key src type startInVideo
           endInVideo playbackRate volume trimLeftInSeconds loop volumeChanges
           fst snd]; try done.
    + by rewrite ts_times0.
    + rewrite Hvol. unfold last_volume. rewrite last_cons_default.
      destruct (abs _ >? _)%num eqn:Hd.
      * exists (vrest ++ [(y.1 - startInVideo (tr_asset tr), ai_volume y.2)]).
        split; [done|]. rewrite ts_start0.
        apply envelope_ok_snoc; [| |exact Hd].
        -- eapply envelope_ok_mono; [|exact Henv]. lia.
        -- cbn [fst].
           pose proof (envelope_ok_last _ _ _ Henv) as Hl. cbn [fst] in Hl. lia.
      * exists vrest. split; [done|]. eapply envelope_ok_mono; [|exact Henv]. lia.
Qed.

Lemma key_samples_Forall (k : string) (frames : list (list AssetInfo)) (frame : Z) :
  Forall (fun p => ai_key p.2 = k /\ frame <= p.1 < frame + Z.of_nat (length frames))
    (key_samples k frame frames).
Proof.
  revert frame. induction frames as [|samples frames IH]; intros frame;
    cbn [key_samples]; [constructor|].
  apply Forall_app. split.
  - apply Forall_fmap, Forall_forall. intros s Hs. cbn.
    apply list_elem_of_In, List.filter_In in Hs as [_ Hs].
    apply bool_decide_eq_true_1 in Hs. split; [done|]. cbn [length]. lia.
  - eapply Forall_impl; [apply (IH (frame + 1))|]. cbn beta. intros p [? ?].
    split; [done|]. cbn [length]. lia.
Qed.

Lemma key_samples_sorted (k : string) (frames : list (list AssetInfo)) (frame : Z) :
  StronglySorted Z.le (fst <$> key_samples k frame frames).
Proof.
  revert frame. induction frames as [|samples frames IH]; intros frame;
    cbn [key_samples]; [constructor|].
  rewrite fmap_app. apply StronglySorted_app. split; [|split; [|apply IH]].
  - intros x1 x2 (p1 & -> & (s & -> & _)%list_elem_of_fmap)%list_elem_of_fmap
           (p2 & -> & Hp2)%list_elem_of_fmap.
    pose proof (key_samples_Forall k frames (frame + 1)) as Hall.
    rewrite Forall_forall in Hall. destruct (Hall _ Hp2) as [_ ?]. cbn. lia.
  - induction (List.filter _ samples) as [|s l IHl]; cbn; [constructor|].
    constructor; [exact IHl|]. apply Forall_fmap, Forall_fmap, Forall_forall.
    intros ? _. cbn. lia.
Qed.

Lemma key_samples_nonempty (k : string) (frames : list (list AssetInfo)) (frame : Z) :
  key_samples k frame frames <> [] <->
  exists samples s, samples ∈ frames /\ s ∈ samples /\ ai_key s = k.
Proof.
  revert frame. induction frames as [|samples frames IH]; intros frame;
    cbn [key_samples].
  - split; [done|]. intros (? & ? & H & _). by apply elem_of_nil in H.
  - split.
    + intros Hne.
      destruct (List.filter _ samples) as [|s l] eqn:Ef.
      * cbn in Hne. apply IH in Hne as (samples' & s & ? & ? & ?).
        exists samples', s. split; [by apply list_elem_of_further|done].
      * assert (Hin : List.In s (List.filter (fun s => bool_decide (ai_key s = k)) samples))
          by (rewrite Ef; by left).
        apply List.filter_In in Hin as [Hin Hk].
        exists samples, s. split; [apply list_elem_of_here|].
        split; [by apply list_elem_of_In|by apply bool_decide_eq_true_1 in Hk].
    + intros (samples' & s & [->|Hin]%elem_of_cons & Hs & Hk).
      * assert (Hf : List.In s (List.filter (fun s => bool_decide (ai_key s = k)) samples)).
        { apply List.filter_In. split; [by apply list_elem_of_In|].
          by apply bool_decide_eq_true_2. }
        destruct (List.filter _ samples); [done|]. done.
      * intros Happ. apply app_eq_nil in Happ as [_ Hnil].
        revert Hnil. apply IH. eauto.
Qed.

Lemma key_samples_first (k : string) (frames : list (list AssetInfo)) (frame : Z) :
  first_sample k frames = snd <$> head (key_samples k frame frames).
Proof.
  unfold first_sample. revert frame.
  induction frames as [|samples frames IH]; intros frame; cbn [concat key_samples];
    [done|].
  induction samples as [|s samples IHs]; cbn [app List.find List.filter fmap list_fmap].
  - apply IH.
  - case_bool_decide; [done|]. apply IHs.
Qed.

(** What [finish] keeps and what it sets. *)
Lemma finish_fields (tr : track) :
  let a := finish tr in
  key a = key (tr_asset tr) /\ src a = src (tr_asset tr) /\
  type a = type (tr_asset tr) /\ playbackRate a = playbackRate (tr_asset tr) /\
  volume a = volume (tr_asset tr) /\
  trimLeftInSeconds a = trimLeftInSeconds (tr_asset tr) /\
  loop a = loop (tr_asset tr) /\
  startInVideo a = startInVideo (tr_asset tr) /\
  endInVideo a = endInVideo (tr_asset tr) /\
  duration a = endInVideo (tr_asset tr) - startInVideo (tr_asset tr) + 1 /\
  volumeChanges a =
    (if bool_decide (1 < Z.of_nat (length (tr_volumes tr)))
     then Some (tr_volumes tr) else volumeChanges (tr_asset tr)) /\
  durationInSeconds a =
    (let d := if tr_loop tr then PInf
              else ((snd (tr_times tr) - fst (tr_times tr))
                    / playbackRate (tr_asset tr))%num in
     if (d =? zero)%num
        && bool_decide (1 < endInVideo (tr_asset tr) - startInVideo (tr_asset tr) + 1)
     then PInf else d).
Proof.
  unfold finish. cbn zeta.
  destruct (bool_decide (1 < Z.of_nat (length (tr_volumes tr))));
    destruct (tr_loop tr); cbn;
    repeat match goal with
           | |- context [if ?b then _ else _] => destruct b eqn:?
           end; cbn; repeat split; try done.
Qed.

(** A span of the result comes from the samples of its key, which are not
    empty and are in frame order. *)
Lemma getAssetPlacement_track (frames : list (list AssetInfo)) (a : MediaAsset) :
  a ∈ getAssetPlacement frames ->
  exists first rest tr,
    key_samples (key a) 0 frames = first :: rest /\
    track_spec first rest tr /\ a = finish tr.
Proof.
  intros (tr & Hfold & ->)%getAssetPlacement_finish.
  pose proof (key_samples_sorted (key (finish tr)) frames 0) as Hs.
  destruct (key_samples _ 0 frames) as [|first rest] eqn:Ek; [done|].
  destruct (track_fold_spec first rest Hs) as (tr' & Hfold' & Hspec).
  rewrite Hfold in Hfold'. injection Hfold' as <-. by exists first, rest, tr.
Qed.

(** ** What [getAssetPlacement] returns *)

(** X1.  [getAssetPlacement] returns one span per key: no two spans have
    the same key, and a key has a span exactly when some sample of some
    frame has it. *)
Theorem getAssetPlacement_keys (frames : list (list AssetInfo)) :
  NoDup (key <$> getAssetPlacement frames) /\
  forall k,
    k ∈ key <$> getAssetPlacement frames <->
    exists samples s, samples ∈ frames /\ s ∈ samples /\ ai_key s = k.
Proof.
  split.
  - unfold getAssetPlacement. cbn zeta.
    set (st := place_frames 0 placement_empty frames).
    assert (Hk : key <$> (compute_durations st <$> (attach_volumeChanges st <$> assets st))
                 = key <$> assets st).
    { rewrite <- !list_fmap_compose. apply list_fmap_ext. intros _ a _. cbn.
      destruct (compute_durations_fields st (attach_volumeChanges st a)) as [-> _].
      by destruct (attach_volumeChanges_fields st a) as [-> _]. }
    rewrite Hk. apply place_frames_NoDup; [apply coherent_empty|constructor].
  - intros k. rewrite <- (key_samples_nonempty k frames 0). split.
    + intros (a & -> & (first & rest & tr & Hk & _)%getAssetPlacement_track)%list_elem_of_fmap.
      by rewrite Hk.
    + intros Hne. pose proof (key_samples_sorted k frames 0) as Hs.
      pose proof (key_samples_Forall k frames 0) as Hall.
      destruct (key_samples k 0 frames) as [|first rest] eqn:Ek; [done|].
      destruct (track_fold_spec first rest Hs) as (tr & Hfold & Hspec).
      apply Forall_cons in Hall as [[Hkey _] _].
      assert (Hkf : key (finish tr) = k).
      { destruct (finish_fields tr) as [-> _]. by rewrite (ts_key _ _ _ Hspec). }
      apply list_elem_of_fmap. exists (finish tr). split; [done|].
      apply getAssetPlacement_finish. exists tr. by rewrite Hkf, Ek.
Qed.

(** X2.  The span of an asset starts at the frame of the first sample of
    its key and ends at the frame of the last one, whatever lies between;
    both frames are frames of the input, and [duration] counts the frames
    from the one to the other. *)
Theorem getAssetPlacement_span (frames : list (list AssetInfo)) (a : MediaAsset) :
  a ∈ getAssetPlacement frames ->
  exists first rest,
    key_samples (key a) 0 frames = first :: rest /\
    startInVideo a = first.1 /\
    endInVideo a = (List.last rest first).1 /\
    duration a = endInVideo a - startInVideo a + 1 /\
    0 <= startInVideo a <= endInVideo a /\
    endInVideo a < Z.of_nat (length frames).
Proof.
  intros (first & rest & tr & Hk & Hspec & ->)%getAssetPlacement_track.
  exists first, rest.
  destruct (finish_fields tr) as (Hkey & _ & _ & _ & _ & _ & _ & Hs & He & Hd & _).
  cbn zeta in *. rewrite Hs, He, Hd, (ts_start _ _ _ Hspec), (ts_end _ _ _ Hspec).
  rewrite Hkey in Hk.
  pose proof (key_samples_sorted (key (tr_asset tr)) frames 0) as Hsort.
  pose proof (key_samples_Forall (key (tr_asset tr)) frames 0) as Hall.
  rewrite Hk in Hsort, Hall. rewrite Hkey.
  assert (Hlast : List.last rest first ∈ first :: rest) by apply last_elem_of.
  rewrite Forall_forall in Hall.
  destruct (Hall _ Hlast) as [_ Hl]. destruct (Hall first) as [_ Hf];
    [apply list_elem_of_here|].
  assert (first.1 <= (List.last rest first).1).
  { cbn in Hsort. apply StronglySorted_cons in Hsort as [Hle _].
    apply elem_of_cons in Hlast as [Heq|Hin]; [rewrite Heq; lia|].
    rewrite Forall_forall in Hle. apply Hle. by apply list_elem_of_fmap_2. }
  repeat split; try done; lia.
Qed.

(** The asset [A] of the scenario, sampled on the frames 0, 1 and 2. *)
Lemma getAssetPlacement_span_witness :
  exists first rest,
    key_samples (key scenario_asset) 0 scenario_frames = first :: rest /\
    startInVideo scenario_asset = first.1 /\
    endInVideo scenario_asset = (List.last rest first).1 /\
    duration scenario_asset = endInVideo scenario_asset - startInVideo scenario_asset + 1 /\
    0 <= startInVideo scenario_asset <= endInVideo scenario_asset /\
    endInVideo scenario_asset < Z.of_nat (length scenario_frames).
Proof.
  apply (getAssetPlacement_span scenario_frames scenario_asset).
  apply (bool_decide_unpack (scenario_asset ∈ getAssetPlacement scenario_frames)).
  vm_compute. exact I.
Defined.

(** X3.  The source, the type, the playback rate and the trim offset of a
    span are those of the first sample of its key: later samples move only
    the end of the span, the end of its time range and its envelope. *)
Theorem getAssetPlacement_first_fields (frames : list (list AssetInfo))
    (a : MediaAsset) :
  a ∈ getAssetPlacement frames ->
  exists s,
    first_sample (key a) frames = Some s /\
    src a = ai_src s /\ type a = ai_type s /\
    playbackRate a = ai_playbackRate s /\
    trimLeftInSeconds a = ai_currentTime s.
Proof.
  intros (first & rest & tr & Hk & Hspec & ->)%getAssetPlacement_track.
  destruct (finish_fields tr) as (Hkey & -> & -> & -> & _ & -> & _).
  exists first.2. rewrite (key_samples_first _ frames 0), Hk.
  destruct Hspec. by repeat split.
Qed.

(** The looping asset of [wrapping_frames]: its trim offset is 13.8 s. *)
Lemma getAssetPlacement_first_fields_witness :
  let a := mkMediaAsset "music" "music.mp3" audio 0 2 3 one one (dec 138 10)
             PInf (Some true) None in
  exists s,
    first_sample (key a) wrapping_frames = Some s /\
    src a = ai_src s /\ type a = ai_type s /\
    playbackRate a = ai_playbackRate s /\
    trimLeftInSeconds a = ai_currentTime s.
Proof.
  intros a. apply (getAssetPlacement_first_fields wrapping_frames a).
  apply (bool_decide_unpack (a ∈ getAssetPlacement wrapping_frames)).
  vm_compute. exact I.
Defined.

(** X4.  [durationInSeconds] of a span is computed from the first and the
    last sample of its key: the unbounded sentinel when the first sample
    loops, else the difference of the two positions over the rate of the
    first sample; a result that is zero on a span of more than one frame is
    replaced by the sentinel. *)
Theorem getAssetPlacement_durationInSeconds (frames : list (list AssetInfo))
    (a : MediaAsset) :
  a ∈ getAssetPlacement frames ->
  exists first rest,
    key_samples (key a) 0 frames = first :: rest /\
    let last := List.last rest first in
    let d := if default false (ai_loop first.2) then PInf
             else ((ai_currentTime last.2 - ai_currentTime first.2)
                   / ai_playbackRate first.2)%num in
    durationInSeconds a =
      if (d =? zero)%num && bool_decide (1 < duration a) then PInf else d.
Proof.
  intros (first & rest & tr & Hk & Hspec & ->)%getAssetPlacement_track.
  exists first, rest. split; [exact Hk|].
  destruct (finish_fields tr) as (_ & _ & _ & _ & _ & _ & _ & _ & _ & Hd & _ & Hds).
  cbn zeta in *. rewrite Hds, Hd.
  by rewrite (ts_times _ _ _ Hspec), (ts_looping _ _ _ Hspec), (ts_rate _ _ _ Hspec).
Qed.

(** The asset [A] of the scenario lasts (0.066 - 0) / 1 seconds. *)
Lemma getAssetPlacement_durationInSeconds_witness :
  exists first rest,
    key_samples (key scenario_asset) 0 scenario_frames = first :: rest /\
    let last := List.last rest first in
    let d := if default false (ai_loop first.2) then PInf
             else ((ai_currentTime last.2 - ai_currentTime first.2)
                   / ai_playbackRate first.2)%num in
    durationInSeconds scenario_asset =
      if (d =? zero)%num && bool_decide (1 < duration scenario_asset)
      then PInf else d.
Proof.
  apply (getAssetPlacement_durationInSeconds scenario_frames scenario_asset).
  apply (bool_decide_unpack (scenario_asset ∈ getAssetPlacement scenario_frames)).
  vm_compute. exact I.
Defined.

(** X5.  An envelope, when a span has one, has at least two breakpoints;
    the first is at offset 0 with the base volume of the span; the offsets
    never decrease and never pass the last frame of the span; and every
    breakpoint differs from the one before it by more than 0.001. *)
Theorem getAssetPlacement_envelope (frames : list (list AssetInfo))
    (a : MediaAsset) (vc : list breakpoint) :
  a ∈ getAssetPlacement frames ->
  volumeChanges a = Some vc ->
  exists c vrest,
    vc = (0, volume a) :: c :: vrest /\
    envelope_ok (endInVideo a - startInVideo a) (0, volume a) (c :: vrest).
Proof.
  intros (first & rest & tr & Hk & Hspec & ->)%getAssetPlacement_track.
  destruct (finish_fields tr) as (_ & _ & _ & _ & -> & _ & _ & -> & -> & _ & -> & _).
  destruct Hspec. destruct ts_envelope0 as (vrest & Hvol & Henv).
  rewrite ts_no_envelope0, Hvol, ts_volume0, ts_start0, ts_end0.
  case_bool_decide as Hlen; [|done]. intros [= <-].
  destruct vrest as [|c vrest]; [cbn in Hlen; lia|]. by exists c, vrest.
Qed.

(** The envelope of the asset [A] of the scenario. *)
Lemma getAssetPlacement_envelope_witness :
  exists c vrest,
    [(0, one); (2, zero)] = (0, volume scenario_asset) :: c :: vrest /\
    envelope_ok (endInVideo scenario_asset - startInVideo scenario_asset)
      (0, volume scenario_asset) (c :: vrest).
Proof.
  apply (getAssetPlacement_envelope scenario_frames scenario_asset).
  - apply (bool_decide_unpack (scenario_asset ∈ getAssetPlacement scenario_frames)).
    vm_compute. exact I.
  - reflexivity.
Defined.

(** ** The numbers of [prepareAudio] *)

Lemma Q2Qc_inject_Z_add (a b : Z) :
  Q2Qc (inject_Z (a + b)) = (Q2Qc (inject_Z a) + Q2Qc (inject_Z b))%Qc.
Proof.
  apply Qc_is_canon. unfold Qcplus. rewrite !this_Q2Qc, inject_Z_plus. reflexivity.
Qed.

Lemma Q2Qc_inject_Z_opp (a : Z) :
  Q2Qc (inject_Z (- a)) = (- Q2Qc (inject_Z a))%Qc.
Proof.
  apply Qc_is_canon. unfold Qcopp. rewrite !this_Q2Qc, inject_Z_opp. reflexivity.
Qed.

Lemma Q2Qc_inject_Z_sub (a b : Z) :
  Q2Qc (inject_Z (a - b)) = (Q2Qc (inject_Z a) - Q2Qc (inject_Z b))%Qc.
Proof.
  unfold Z.sub, Qcminus. by rewrite Q2Qc_inject_Z_add, Q2Qc_inject_Z_opp.
Qed.

(** X6.  [padEnd] is never negative: it is NaN or at least zero. *)
Theorem padEnd_not_negative (asset : MediaAsset) (startFrame endFrame : Z)
    (fps assetSampleRate : num) :
  (padEnd asset startFrame endFrame fps assetSampleRate <? zero)%num = false.
Proof.
  unfold padEnd. generalize (assetSampleRate * ofZ (endFrame - startFrame + 1) / fps
    - assetSampleRate * ofZ (duration asset) / fps
    - assetSampleRate * padStart asset fps / ofZ 1000)%num.
  intros x. unfold max, zero, ofZ. destruct x as [q| | |]; cbn; try done.
  case_bool_decide as Hq; cbn; [|done].
  apply bool_decide_eq_false_2. intros Hneg.
  eapply Qclt_not_eq; [eapply Qclt_trans; [exact Hq|exact Hneg]|done].
Qed.

(** X7.  For a finite sample rate and a finite non-zero frame rate, and a
    span whose [duration] counts its frames, [padEnd] is the sample rate
    over the frame rate times the number of frames between the last frame
    of the span and [endFrame - startFrame], clamped at zero. *)
Theorem padEnd_frames (asset : MediaAsset) (startFrame endFrame : Z) (f r : Qc) :
  f <> 0%Qc ->
  duration asset = endInVideo asset - startInVideo asset + 1 ->
  padEnd asset startFrame endFrame (Fin f) (Fin r) =
    max zero
      (Fin (r * Q2Qc (inject_Z (endFrame - startFrame - endInVideo asset)) / f)).
Proof.
  intros Hf Hd. unfold padEnd, padStart, ofZ. rewrite Hd. cbn [div mul].
  rewrite !bool_decide_eq_false_2 by done. cbn [div mul sub add neg].
  rewrite bool_decide_eq_false_2 by done. cbn [add].
  do 2 f_equal.
  replace (endFrame - startFrame - endInVideo asset)
    with ((endFrame - startFrame + 1)
          - (endInVideo asset - startInVideo asset + 1) - startInVideo asset) by lia.
  rewrite !Q2Qc_inject_Z_sub.
  set (a := Q2Qc (inject_Z (endFrame - startFrame + 1))).
  set (b := Q2Qc (inject_Z (endInVideo asset - startInVideo asset + 1))).
  set (c := Q2Qc (inject_Z (startInVideo asset))).
  field. split; [exact Hf|done].
Qed.

(** A span that ends on frame 29 of a shard of frames 0 to 30. *)
Lemma padEnd_frames_witness :
  padEnd plain_asset 0 30 (Fin (qc 30 1)) (Fin (qc 44100 1)) =
    max zero (Fin (qc 44100 1 * Q2Qc (inject_Z (30 - 0 - endInVideo plain_asset))
                   / qc 30 1)).
Proof.
  apply (padEnd_frames plain_asset 0 30 (qc 30 1) (qc 44100 1)).
  - by vm_compute.
  - reflexivity.
Defined.

(** X8.  The extracted window, [trimRight - trimLeft], lasts one frame plus
    the smaller of the duration of the span and the duration that the
    shard requires; for an unbounded span that is the duration of the shard
    plus one frame. *)
Theorem trimRight_window (asset : MediaAsset) (startFrame endFrame : Z)
    (f t p : Qc) :
  f <> 0%Qc ->
  trimLeftInSeconds asset = Fin t ->
  playbackRate asset = Fin p ->
  p <> 0%Qc ->
  (trimRight asset startFrame endFrame (Fin f) - trimLeft asset)%num =
    (one / Fin f +
     min (durationInSeconds asset)
         (requiredDurationInSeconds startFrame endFrame (Fin f)))%num.
Proof.
  intros Hf Ht Hp Hp0.
  unfold trimRight, requiredDurationInSeconds, trimLeft. rewrite Ht, Hp.
  unfold one, ofZ. cbn [div]. rewrite !bool_decide_eq_false_2 by done.
  set (tl := (t / p)%Qc). set (req := (Q2Qc (inject_Z (endFrame - startFrame)) / f)%Qc).
  set (fr := (Q2Qc (inject_Z 1) / f)%Qc).
  destruct (durationInSeconds asset) as [d| | |]; cbn [add min ltb sub neg].
  - destruct (decide (req < d)%Qc) as [Hlt|Hge].
    + rewrite !bool_decide_eq_true_2; [|done|by apply Qcplus_lt_mono_l].
      cbn [add sub neg]. f_equal. ring.
    + rewrite !bool_decide_eq_false_2; [|done|by rewrite <- Qcplus_lt_mono_l].
      cbn [add sub neg]. f_equal. ring.
  - cbn [add sub neg]. f_equal. ring.
  - done.
  - done.
Qed.

(** The window of a one-second span in a one-second shard. *)
Lemma trimRight_window_witness :
  (trimRight plain_asset 0 30 (Fin (qc 30 1)) - trimLeft plain_asset)%num =
    (one / Fin (qc 30 1) +
     min (durationInSeconds plain_asset)
         (requiredDurationInSeconds 0 30 (Fin (qc 30 1))))%num.
Proof.
  apply (trimRight_window plain_asset 0 30 (qc 30 1) (qc 2 1) (qc 1 1)).
  - by vm_compute.
  - by_compute.
  - by_compute.
  - by vm_compute.
Defined.

(** X9.  A rate that the engine accepts as it is, from 0.5 to 100 and
    other than 1, gives a chain of one stage, at that rate. *)
Theorem calculateAtempoFilters_single (r : Qc) :
  (qc 1 2 <= r)%Qc -> (r <= qc 100 1)%Qc -> r <> Q2Qc (inject_Z 1) ->
  calculateAtempoFilters (Fin r) = Some [Atempo (Fin r)].
Proof.
  intros Hlo Hhi Hne.
  assert (Hpos : (0 < r)%Qc) by qc_lra.
  unfold calculateAtempoFilters, calculateAtempoFilters_fuel.
  destruct (atempo_speed_up_spec _ r [] 1%Qc (atempo_fuel_speed_up r))
    as (r1 & acc1 & p1 & He1 & _ & _ & _ & _ & _ & Hsame1); [done|constructor|].
  destruct (Hsame1 Hhi) as [-> ->]. rewrite He1. cbn [mbind option_bind].
  unfold gtb, one, ofZ. cbn [ltb].
  destruct (decide (Q2Qc (inject_Z 1) < r)%Qc) as [Hgt|Hle].
  - rewrite bool_decide_eq_true_2 by done.
    destruct (atempo_slow_down_spec _ r ([] ++ [Atempo (Fin r)]) (1 * r)%Qc
                Hpos (atempo_fuel_slow_down r))
      as (r2 & acc2 & p2 & He2 & _ & _ & _ & _ & _ & Hsame2).
    { by apply chain_product_snoc. }
    { repeat constructor. exists r. by split. }
    destruct (Hsame2 Hlo) as [-> ->]. rewrite He2. cbn [mbind option_bind ltb].
    rewrite bool_decide_eq_false_2; [done|]. intros Hlt. qc_lra.
  - rewrite bool_decide_eq_false_2 by done.
    destruct (atempo_slow_down_spec _ r [] 1%Qc Hpos (atempo_fuel_slow_down r))
      as (r2 & acc2 & p2 & He2 & _ & _ & _ & _ & _ & Hsame2); [done|constructor|].
    destruct (Hsame2 Hlo) as [-> ->]. rewrite He2. cbn [mbind option_bind ltb].
    rewrite bool_decide_eq_true_2; [done|].
    apply Qcnot_lt_le in Hle. apply Qcle_lt_or_eq in Hle as [?|?]; [done|congruence].
Qed.

(** The rate 2.5 is passed on as one stage. *)
Lemma calculateAtempoFilters_single_witness :
  calculateAtempoFilters (Fin (qc 5 2)) = Some [Atempo (Fin (qc 5 2))].
Proof.
  apply (calculateAtempoFilters_single (qc 5 2)); by vm_compute.
Defined.

(** X10.  With a playback rate that is zero, negative or infinite the
    condition of a loop of [calculateAtempoFilters] stays true whatever the
    number of iterations, so the call ends by the exception of [push] on a
    full array, and [prepareAudio] rejects with it after the probe of the
    sample rate: it does not run the engine and writes nothing. *)
Theorem prepareAudio_negative_rate (E : environment) (outputDir tempDir : string)
    (asset : MediaAsset) (startFrame endFrame : Z) (fps sr : num) (w : world) :
  (playbackRate asset = PInf \/ playbackRate asset = NInf \/
   exists q, playbackRate asset = Fin q /\ (q <= 0)%Qc) ->
  getSampleRate E (resolvePath E outputDir (src asset)) = Resolved sr ->
  (forall fuel, calculateAtempoFilters_fuel fuel (playbackRate asset) = None) /\
  prepareAudio E outputDir tempDir asset startFrame endFrame fps w
    = (Rejected "RangeError: Invalid array length", w).
Proof.
  intros Hrate Hsr.
  assert (Hdiv : forall fuel, calculateAtempoFilters_fuel fuel (playbackRate asset) = None).
  { intros fuel. by apply calculateAtempoFilters_diverges. }
  split; [exact Hdiv|].
  unfold prepareAudio, bind, await. rewrite Hsr.
  unfold calculateAtempoFilters. by rewrite Hdiv.
Qed.

(** A span played backwards. *)
Lemma prepareAudio_negative_rate_witness :
  let a := set_durationInSeconds one
             (mkMediaAsset "rev" "rev.mp3" audio 0 29 30 (ofZ (-1)) one zero one
                (Some false) None) in
  (forall fuel, calculateAtempoFilters_fuel fuel (playbackRate a) = None) /\
  prepareAudio (succeeding riff None) "out" "/tmp/shard" a 0 30 (ofZ 30) empty_world
    = (Rejected "RangeError: Invalid array length", empty_world).
Proof.
  intros a.
  apply (prepareAudio_negative_rate (succeeding riff None) "out" "/tmp/shard" a
           0 30 (ofZ 30) (ofZ 44100) empty_world).
  - right; right. exists (Q2Qc (inject_Z (-1))). split; [reflexivity|by vm_compute].
  - reflexivity.
Defined.

(** X11.  The volume stages depend on the first, the second and the last
    breakpoint of the envelope only: the breakpoints between the second and
    the last play no part. *)
Theorem volume_filters_ignore_middle (asset : MediaAsset) (fps : num)
    (c0 c1 cl : breakpoint) (middle middle' : list breakpoint) :
  volume_filters (set_volumeChanges (c0 :: c1 :: middle ++ [cl]) asset) fps =
  volume_filters (set_volumeChanges (c0 :: c1 :: middle' ++ [cl]) asset) fps.
Proof.
  unfold volume_filters, set_volumeChanges. cbn [volumeChanges].
  rewrite !(last_cons_default (c1 :: _)), !last_cons_default, !last_snoc.
  reflexivity.
Qed.

(** ** What [generateAudio] runs and returns *)

Lemma files_after_app (E : environment) (fs : gmap string content)
    (s1 s2 : list command) :
  files_after E fs (s1 ++ s2) = files_after E (files_after E fs s1) s2.
Proof. unfold files_after. by rewrite foldl_app. Qed.

Lemma all_reported_end_app (E : environment) (s1 s2 : list command) :
  forall fs : gmap string content,
    all_reported_end E fs (s1 ++ s2) =
      all_reported_end E fs s1 && all_reported_end E (files_after E fs s1) s2.
Proof.
  induction s1 as [|c s1 IH]; intros fs; [done|].
  cbn [app all_reported_end]. rewrite IH. cbn. by rewrite andb_assoc.
Qed.

(** [prepareAudio] runs the engine at most once, for a synthesis on its
    output path, and resolves with that path only; a run that reports an
    error rejects it. *)
Lemma prepareAudio_trace (E : environment) (outputDir tempDir : string)
    (asset : MediaAsset) (startFrame endFrame : Z) (fps : num)
    (w w' : world) (r : settled string) :
  prepareAudio E outputDir tempDir asset startFrame endFrame fps w = (r, w') ->
  exists synths,
    trace w' = trace w ++ (Run <$> synths) /\
    Forall (fun c => is_synthesize c = true) synths /\
    files w' = files_after E (files w) synths /\
    all_reported_end E (files w) (removelast synths) = true /\
    (all_reported_end E (files w) synths = false -> exists err, r = Rejected err) /\
    forall p, r = Resolved p ->
      p = outputPath tempDir asset /\ command_output <$> synths = [p].
Proof.
  unfold prepareAudio, bind, await.
  destruct (getSampleRate E _) as [sr| |].
  2,3: intros [= <- <-]; exists []; cbn; rewrite app_nil_r; by repeat split.
  destruct (calculateAtempoFilters _) as [fs|].
  2: intros [= <- <-]; exists []; cbn; rewrite app_nil_r; by repeat split.
  rewrite run_engine_eq.
  destruct (reported _) as [err|] eqn:Erep; unfold ret; intros [= <- <-];
    eexists [_];
    cbn [fmap list_fmap trace files files_after foldl all_reported_end removelast];
    rewrite Erep;
    (split; [reflexivity|]); (split; [by repeat constructor|]);
    (split; [reflexivity|]); (split; [reflexivity|]).
  - split; [by exists err|done].
  - split; [by rewrite bool_decide_eq_true_2|]. by intros p [= <-].
Qed.

(** A computation that is not rejected has met no failing run. *)
Lemma all_reported_end_resolved {A : Type} (E : environment)
    (fs : gmap string content) (synths : list command) (r : settled A) :
  (all_reported_end E fs synths = false -> exists err, r = Rejected err) ->
  (forall err, r <> Rejected err) ->
  all_reported_end E fs synths = true.
Proof.
  intros Hfail Hr. destruct (all_reported_end E fs synths); [done|].
  destruct Hfail as [err ->]; [done|]. by destruct (Hr err).
Qed.

Lemma generateAudio_asset_trace (E : environment) (outputDir fullTempDir : string)
    (startFrame endFrame : Z) (fps : num) (names : list string)
    (asset : MediaAsset) (w w' : world) (r : settled (list string)) :
  generateAudio_asset E outputDir fullTempDir startFrame endFrame fps names asset w
    = (r, w') ->
  exists synths,
    trace w' = trace w ++ (Run <$> synths) /\
    Forall (fun c => is_synthesize c = true) synths /\
    files w' = files_after E (files w) synths /\
    all_reported_end E (files w) (removelast synths) = true /\
    (all_reported_end E (files w) synths = false -> exists err, r = Rejected err) /\
    forall names', r = Resolved names' ->
      names' = names ++ (command_output <$> synths) /\
      command_output <$> synths =
        outputPath fullTempDir <$> List.filter (audible E outputDir) [asset].
Proof.
  unfold generateAudio_asset, bind, audible. cbn [List.filter].
  set (probe := checkForAudioStream E _).
  assert (Hnone : forall (r0 : settled (list string)),
            (forall names', r0 <> Resolved names') ->
            (r0, w) = (r, w') ->
            exists synths, trace w' = trace w ++ (Run <$> synths) /\
              Forall (fun c => is_synthesize c = true) synths /\
              files w' = files_after E (files w) synths /\
              all_reported_end E (files w) (removelast synths) = true /\
              (all_reported_end E (files w) synths = false ->
               exists err, r = Rejected err) /\
              forall names', r = Resolved names' ->
                names' = names ++ (command_output <$> synths) /\
                command_output <$> synths =
                  outputPath fullTempDir <$>
                    (if (playbackRate asset !=? zero)%num && (volume asset !=? zero)%num
                        && (if bool_decide (type asset <> audio)
                            then bool_decide (probe = Resolved true) else true)
                     then [asset] else [])).
  { intros r0 Hr0 [= <- <-]. exists []. cbn. rewrite app_nil_r.
    split; [done|]. split; [done|]. split; [done|]. split; [done|]. split; [done|].
    intros names' Hn. by destruct (Hr0 names'). }
  assert (Hmain : forall b : bool,
            (if bool_decide (type asset <> audio)
             then bool_decide (probe = Resolved true) else true) = b ->
            (if (playbackRate asset !=? zero)%num && (volume asset !=? zero)%num && b
             then bind (prepareAudio E outputDir fullTempDir asset startFrame endFrame fps)
                    (fun filename => ret (names ++ [filename]))
             else ret names) w = (r, w') ->
            exists synths, trace w' = trace w ++ (Run <$> synths) /\
              Forall (fun c => is_synthesize c = true) synths /\
              files w' = files_after E (files w) synths /\
              all_reported_end E (files w) (removelast synths) = true /\
              (all_reported_end E (files w) synths = false ->
               exists err, r = Rejected err) /\
              forall names', r = Resolved names' ->
                names' = names ++ (command_output <$> synths) /\
                command_output <$> synths =
                  outputPath fullTempDir <$>
                    (if (playbackRate asset !=? zero)%num && (volume asset !=? zero)%num
                        && (if bool_decide (type asset <> audio)
                            then bool_decide (probe = Resolved true) else true)
                     then [asset] else [])).
  { intros b Hb. rewrite Hb. destruct (_ && _ && b).
    - unfold bind.
      destruct (prepareAudio _ _ _ _ _ _ _ w) as [[p| |] w1] eqn:Ep;
        apply prepareAudio_trace in Ep
          as (synths & Htr & Hsy & Hfs & Hprev & Hfail & Hres);
        unfold ret; intros [= <- <-]; exists synths;
        (split; [done|]); (split; [done|]); (split; [done|]); (split; [done|]).
      + split.
        * intros Hf. by destruct (Hfail Hf).
        * intros names' [= <-]. destruct (Hres p eq_refl) as [-> Hout].
          by rewrite Hout.
      + split; [intros _; by eexists|done].
      + split; [|done]. intros Hf. by destruct (Hfail Hf).
    - unfold ret. intros [= <- <-]. exists []. cbn. rewrite app_nil_r.
      split; [done|]. split; [done|]. split; [done|]. split; [done|]. split; [done|].
      intros names' [= <-]. by rewrite app_nil_r. }
  case_bool_decide as Hty; unfold await, ret.
  - destruct probe as [b| |] eqn:Epr.
    + apply Hmain. destruct b; [by rewrite bool_decide_eq_true_2|].
      by rewrite bool_decide_eq_false_2.
    + by apply Hnone.
    + by apply Hnone.
  - by apply Hmain.
Qed.

Lemma generateAudio_loop_trace (E : environment) (outputDir fullTempDir : string)
    (startFrame endFrame : Z) (fps : num) (assetPositions : list MediaAsset) :
  forall (names : list string) (w w' : world) (r : settled (list string)),
    generateAudio_loop E outputDir fullTempDir startFrame endFrame fps names
      assetPositions w = (r, w') ->
    exists synths,
      trace w' = trace w ++ (Run <$> synths) /\
      Forall (fun c => is_synthesize c = true) synths /\
      files w' = files_after E (files w) synths /\
      all_reported_end E (files w) (removelast synths) = true /\
      (all_reported_end E (files w) synths = false -> exists err, r = Rejected err) /\
      forall names', r = Resolved names' ->
        names' = names ++ (command_output <$> synths) /\
        command_output <$> synths =
          outputPath fullTempDir <$>
            List.filter (audible E outputDir) assetPositions.
Proof.
  induction assetPositions as [|asset rest IH]; intros names w w' r.
  - cbn. unfold ret. intros [= <- <-]. exists []. cbn. rewrite app_nil_r.
    split; [done|]. split; [done|]. split; [done|]. split; [done|]. split; [done|].
    intros names' [= <-]. by rewrite app_nil_r.
  - cbn [generateAudio_loop]. unfold bind at 1.
    destruct (generateAudio_asset _ _ _ _ _ _ names asset w) as [r1 w1] eqn:E1.
    apply generateAudio_asset_trace in E1
      as (s1 & Htr1 & Hsy1 & Hfs1 & Hprev1 & Hfail1 & Hres1).
    destruct r1 as [names1| |].
    + intros Hrest.
      apply IH in Hrest as (s2 & Htr2 & Hsy2 & Hfs2 & Hprev2 & Hfail2 & Hres2).
      destruct (Hres1 names1 eq_refl) as [-> Hout1].
      assert (Hend1 : all_reported_end E (files w) s1 = true)
        by (by apply (all_reported_end_resolved _ _ _ _ Hfail1)).
      assert (Hprev : all_reported_end E (files w) (removelast (s1 ++ s2)) = true).
      { destruct s2 as [|c s2]; [by rewrite app_nil_r|].
        rewrite removelast_app by done.
        by rewrite all_reported_end_app, Hend1, <- Hfs1. }
      exists (s1 ++ s2). rewrite Htr2, Htr1, !fmap_app, <- app_assoc.
      split; [done|]. split; [by apply Forall_app|].
      split; [by rewrite files_after_app, <- Hfs1|].
      split; [exact Hprev|].
      split.
      * rewrite all_reported_end_app, Hend1, <- Hfs1. exact Hfail2.
      * intros names' Hr. destruct (Hres2 names' Hr) as [-> Hout2].
        rewrite <- app_assoc. split; [done|].
        rewrite Hout1, Hout2. cbn [List.filter].
        destruct (audible E outputDir asset); by cbn.
    + intros [= <- <-]. exists s1. by repeat (split; [done|]).
    + intros [= <- <-]. exists s1. by repeat (split; [done|]).
Qed.

(** X12.  When [generateAudio] resolves, the names it returns are the
    output paths of the spans that are not skipped, in the order of the
    spans: those with a non-zero rate and a non-zero volume and, unless of
    type [audio], an audio stream found by the probe. *)
Theorem generateAudio_names (E : environment) (outputDir tempDir : string)
    (frames : list (list AssetInfo)) (startFrame endFrame : Z) (fps : num)
    (w w' : world) (names : list string) :
  generateAudio E outputDir tempDir frames startFrame endFrame fps w
    = (Resolved names, w') ->
  names =
    outputPath (path_join (tmpdir E) tempDir) <$>
      List.filter (audible E outputDir) (getAssetPlacement frames).
Proof.
  unfold generateAudio. set (fullTempDir := path_join (tmpdir E) tempDir).
  unfold bind at 1, await at 1.
  destruct (makeSureFolderExists E outputDir) as [[]| |]; [|done..].
  unfold bind at 1, await at 1.
  destruct (makeSureFolderExists E fullTempDir) as [[]| |]; [|done..].
  unfold bind at 1.
  destruct (generateAudio_loop _ _ _ _ _ _ _ _ w) as [[names1| |] w1] eqn:Eloop;
    [|done..].
  apply generateAudio_loop_trace in Eloop as (synths & _ & _ & _ & _ & _ & Hres).
  destruct (Hres names1 eq_refl) as [-> <-]. cbn [app].
  unfold bind, ret. case_bool_decide.
  - destruct (mergeAudioTracks _ _ _ _) as [[[]| |] ?]; [|done..]. by intros [= <- _].
  - by intros [= <- _].
Qed.

(** X13.  [generateAudio] runs the engine for syntheses and, after them, at
    most once for the mix.  Every synthesis before the last one run has
    reported [end]: when a synthesis reports an error no further synthesis
    and no mix is run, and [generateAudio] rejects.  The mix is run only
    when every span that is not skipped has been synthesized and every one
    of these runs has reported [end]; its inputs are then all their output
    paths, in order, and its output is [audio.wav] in the temporary
    directory.  No mix of a part of the segments is ever run. *)
Theorem generateAudio_mix_complete (E : environment) (outputDir tempDir : string)
    (frames : list (list AssetInfo)) (startFrame endFrame : Z) (fps : num)
    (w w' : world) (r : settled (list string)) :
  generateAudio E outputDir tempDir frames startFrame endFrame fps w = (r, w') ->
  let fullTempDir := path_join (tmpdir E) tempDir in
  exists synths,
    Forall (fun c => is_synthesize c = true) synths /\
    all_reported_end E (files w) (removelast synths) = true /\
    (all_reported_end E (files w) synths = false ->
     trace w' = trace w ++ (Run <$> synths) /\ exists err, r = Rejected err) /\
    (trace w' = trace w ++ (Run <$> synths) \/
     (trace w' =
        trace w ++ (Run <$> synths) ++
          [Run (Mix (command_output <$> synths) (path_join fullTempDir "audio.wav"))] /\
      synths <> [] /\
      all_reported_end E (files w) synths = true /\
      command_output <$> synths =
        outputPath fullTempDir <$>
          List.filter (audible E outputDir) (getAssetPlacement frames))).
Proof.
  intros Hgen fullTempDir. revert Hgen.
  unfold generateAudio. fold fullTempDir.
  unfold bind at 1, await at 1.
  destruct (makeSureFolderExists E outputDir) as [[]| |].
  2,3: intros [= <- <-]; exists []; split; [done|]; split; [done|];
       split; [done|left; cbn; by rewrite app_nil_r].
  unfold bind at 1, await at 1.
  destruct (makeSureFolderExists E fullTempDir) as [[]| |].
  2,3: intros [= <- <-]; exists []; split; [done|]; split; [done|];
       split; [done|left; cbn; by rewrite app_nil_r].
  unfold bind at 1.
  destruct (generateAudio_loop _ _ _ _ _ _ _ _ w) as [r1 w1] eqn:Eloop.
  apply generateAudio_loop_trace in Eloop
    as (synths & Htr & Hsy & Hfs & Hprev & Hfail & Hres).
  destruct r1 as [names1| |].
  2,3: intros [= <- <-]; exists synths; split; [exact Hsy|]; split; [exact Hprev|];
       split; [by intros Hf; split; [|apply Hfail]|by left].
  assert (Hend : all_reported_end E (files w) synths = true)
    by (by apply (all_reported_end_resolved _ _ _ _ Hfail)).
  destruct (Hres names1 eq_refl) as [-> Hout]. cbn [app] in *.
  unfold bind, ret. case_bool_decide as Hlen.
  - unfold mergeAudioTracks. rewrite run_engine_eq.
    destruct (reported _); intros [= <- <-]; exists synths;
      (split; [exact Hsy|]); (split; [exact Hprev|]);
      (split; [by rewrite Hend|]); cbn [trace]; right;
      (split; [by rewrite Htr, <- app_assoc|]);
      (split; [intros ->; cbn in Hlen; lia|by split]).
  - intros [= <- <-]. exists synths. split; [exact Hsy|]. split; [exact Hprev|].
    split; [by rewrite Hend|by left].
Qed.

(** The voice and the music are synthesized, the silent effect is not. *)
Lemma generateAudio_names_witness :
  ["/tmp/shard/voice.wav"; "/tmp/shard/music.wav"] =
    outputPath (path_join (tmpdir (succeeding riff None)) "shard") <$>
      List.filter (audible (succeeding riff None) "out")
        (getAssetPlacement mixed_frames).
Proof.
  apply (generateAudio_names (succeeding riff None) "out" "shard" mixed_frames
           0 3 (ofZ 30) empty_world
           (generateAudio (succeeding riff None) "out" "shard" mixed_frames
              0 3 (ofZ 30) empty_world).2).
  by_compute.
Defined.

(** Two syntheses, then the mix of the two segments. *)
Lemma generateAudio_mix_complete_witness :
  let E := succeeding riff None in
  let w' := (generateAudio E "out" "shard" mixed_frames 0 3 (ofZ 30) empty_world).2 in
  let r := (generateAudio E "out" "shard" mixed_frames 0 3 (ofZ 30) empty_world).1 in
  let fullTempDir := path_join (tmpdir E) "shard" in
  exists synths,
    Forall (fun c => is_synthesize c = true) synths /\
    all_reported_end E (files empty_world) (removelast synths) = true /\
    (all_reported_end E (files empty_world) synths = false ->
     trace w' = trace empty_world ++ (Run <$> synths) /\ exists err, r = Rejected err) /\
    (trace w' = trace empty_world ++ (Run <$> synths) \/
     (trace w' =
        trace empty_world ++ (Run <$> synths) ++
          [Run (Mix (command_output <$> synths) (path_join fullTempDir "audio.wav"))] /\
      synths <> [] /\
      all_reported_end E (files empty_world) synths = true /\
      command_output <$> synths =
        outputPath fullTempDir <$>
          List.filter (audible E "out") (getAssetPlacement mixed_frames))).
Proof.
  intros E w' r.
  apply (generateAudio_mix_complete E "out" "shard" mixed_frames 0 3 (ofZ 30)
           empty_world w' r).
  by_compute.
Defined.

(** ** Failure of the merge step *)

(** X14.  When the merge step of [mergeMedia] rejects, [mergeMedia] rejects
    with the same error and does not reach the cleanup: the merge or the
    copy is the one effect it has had, and no removal is attempted, also of
    a directory that carries the marker. *)
Theorem mergeMedia_failure_keeps_directory (E : environment)
    (outputFilename outputDir tempDir : string) (fmt : format) (w wm : world)
    (err : string) :
  let fullTempDir := path_join (tmpdir E) tempDir in
  makeSureFolderExists E outputDir = Resolved tt ->
  makeSureFolderExists E fullTempDir = Resolved tt ->
  mergeMedia_merge E outputFilename outputDir fullTempDir fmt w = (Rejected err, wm) ->
  mergeMedia E outputFilename outputDir tempDir fmt w = (Rejected err, wm) /\
  exists e : effect, trace wm = trace w ++ [e] /\ forall directory, e <> Rm directory.
Proof.
  intros fullTempDir Hout Htmp Hmerge. split.
  - unfold mergeMedia. fold fullTempDir.
    unfold bind at 1, await at 1. rewrite Hout.
    unfold bind at 1, await at 1. rewrite Htmp.
    unfold bind. by rewrite Hmerge.
  - revert Hmerge. unfold mergeMedia_merge.
    destruct (existsSync _ w).
    + unfold mergeAudioWithVideo. rewrite run_engine_eq.
      intros [= _ <-]. eexists. split; [reflexivity|done].
    + unfold copyFile. destruct (files w !! _); intros [= _ <-].
      eexists. split; [reflexivity|done].
Qed.

(** A marked directory without the visual container: the copy fails and the
    directory is kept. *)
Lemma mergeMedia_failure_keeps_directory_witness :
  let E := succeeding riff None in
  let w := mkWorld {[ "/tmp/revideo-undefined/notes.txt" := riff ]} [] in
  let wm := mkWorld (files w)
              [CopyFile "/tmp/revideo-undefined/visuals.mp4" "out/video.mp4"] in
  mergeMedia E "video" "out" "revideo-undefined" mp4 w = (Rejected "ENOENT", wm) /\
  exists e : effect, trace wm = trace w ++ [e] /\ forall directory, e <> Rm directory.
Proof.
  intros E w wm.
  apply (mergeMedia_failure_keeps_directory E "video" "out" "revideo-undefined"
           mp4 w wm "ENOENT").
  - reflexivity.
  - reflexivity.
  - by_compute.
Defined.

(** ** Sanitized keys *)

(** X15.  Sanitizing a key keeps its length, leaves no [/], [[] or []] in
    it, changes no other character, and changes nothing when applied
    again. *)
Theorem sanitize_safe (s : string) :
  String.length (sanitize s) = String.length s /\
  sanitize (sanitize s) = sanitize s /\
  (forall n c, String.get n (sanitize s) = Some c ->
     c <> "/"%char /\ c <> "["%char /\ c <> "]"%char) /\
  (forall n c, String.get n s = Some c ->
     c <> "/"%char -> c <> "["%char -> c <> "]"%char ->
     String.get n (sanitize s) = Some c).
Proof.
  assert (Hc : forall c, let c' := sanitize_char c in
            c' <> "/"%char /\ c' <> "["%char /\ c' <> "]"%char /\
            sanitize_char c' = c' /\
            (c <> "/"%char -> c <> "["%char -> c <> "]"%char -> c' = c)).
  { intros c. unfold sanitize_char.
    destruct (bool_decide (c = "/"%char)) eqn:H1;
      destruct (bool_decide (c = "["%char)) eqn:H2;
      destruct (bool_decide (c = "]"%char)) eqn:H3; cbn;
      try (apply bool_decide_eq_true_1 in H1);
      try (apply bool_decide_eq_true_1 in H2);
      try (apply bool_decide_eq_true_1 in H3);
      try (apply bool_decide_eq_false_1 in H1);
      try (apply bool_decide_eq_false_1 in H2);
      try (apply bool_decide_eq_false_1 in H3);
      repeat split; try done.
    rewrite !bool_decide_eq_false_2 by done. done. }
  induction s as [|c s (IH1 & IH2 & IH3 & IH4)]; cbn [sanitize String.length].
  - repeat split; try done; intros n c; by destruct n.
  - destruct (Hc c) as (H1 & H2 & H3 & H4 & H5). cbn zeta in *.
    split; [by rewrite IH1|]. split; [by rewrite H4, IH2|]. split.
    + intros [|n] c'; cbn [String.get].
      * by intros [= <-].
      * apply IH3.
    + intros [|n] c'; cbn [String.get].
      * intros [= <-] ? ? ?. f_equal. by apply H5.
      * apply IH4.
Qed.

(** ** Spans and their chains *)

Lemma track_fold_static (first : Z * AssetInfo) (rest : list (Z * AssetInfo)) :
  Forall (fun p => (abs (ai_volume p.2 - ai_volume first.2) >? dec 1 1000)%num = false)
    rest ->
  exists tr,
    foldl track_next None (first :: rest) = Some tr /\
    tr_volumes tr = [(0, ai_volume first.2)].
Proof.
  induction rest as [|y rest IH] using rev_ind; intros Hall.
  - eexists. by split.
  - apply Forall_app in Hall as [Hall Hy]. rewrite Forall_singleton in Hy.
    destruct (IH Hall) as (tr & Hfold & Hvol).
    exists (track_step y.1 y.2 tr). rewrite app_comm_cons, foldl_app, Hfold.
    split; [done|]. unfold track_step. cbn [tr_volumes].
    rewrite Hvol. unfold last_volume. cbn [List.last snd]. by rewrite Hy.
Qed.

(** X16.  A span none of whose samples departs from its base volume by
    more than 0.001 has no envelope, and its volume stage is the constant
    gain at the base volume. *)
Theorem getAssetPlacement_static_volume (frames : list (list AssetInfo))
    (a : MediaAsset) :
  a ∈ getAssetPlacement frames ->
  Forall (fun p => (abs (ai_volume p.2 - volume a) >? dec 1 1000)%num = false)
    (key_samples (key a) 0 frames) ->
  volumeChanges a = None /\
  forall fps, volume_filters a fps = [Volume (volume a)].
Proof.
  intros Hin Hall.
  assert (Hnone : volumeChanges a = None).
  { apply getAssetPlacement_finish in Hin as (tr & Hfold & ->).
    destruct (finish_fields tr) as (Hkey & _ & _ & _ & Hvol & _ & _ & _ & _ & _ & Hvc & _).
    cbn zeta in *. rewrite Hkey, Hvol in Hall. rewrite Hkey in Hfold.
    pose proof (key_samples_sorted (key (tr_asset tr)) frames 0) as Hs.
    destruct (key_samples _ 0 frames) as [|first rest] eqn:Ek; [done|].
    destruct (track_fold_spec first rest Hs) as (tr' & Hfold' & Hspec).
    rewrite Hfold in Hfold'. injection Hfold' as <-.
    rewrite (ts_volume _ _ _ Hspec) in Hall.
    apply Forall_cons in Hall as [_ Hall].
    destruct (track_fold_static first rest Hall) as (tr' & Hfold' & Hstatic).
    rewrite Hfold in Hfold'. injection Hfold' as <-.
    rewrite Hvc, Hstatic. cbn. apply (ts_no_envelope _ _ _ Hspec). }
  split; [exact Hnone|]. intros fps. unfold volume_filters. by rewrite Hnone.
Qed.

(** The music of [wrapping_frames] stays at volume 1. *)
Lemma getAssetPlacement_static_volume_witness :
  let a := mkMediaAsset "music" "music.mp3" audio 0 2 3 one one (dec 138 10)
             PInf (Some true) None in
  volumeChanges a = None /\
  forall fps, volume_filters a fps = [Volume (volume a)].
Proof.
  intros a. apply (getAssetPlacement_static_volume wrapping_frames a).
  - apply (bool_decide_unpack (a ∈ getAssetPlacement wrapping_frames)).
    vm_compute. exact I.
  - repeat constructor.
Defined.

(** X17.  A span is looped by the engine exactly when the first sample of
    its key has the loop flag set: then its chain starts with the [aloop]
    stage.  A span that is unbounded only because its position did not
    advance is not looped. *)
Theorem getAssetPlacement_needsLooping (frames : list (list AssetInfo))
    (a : MediaAsset) (s : AssetInfo) :
  a ∈ getAssetPlacement frames ->
  first_sample (key a) frames = Some s ->
  needsLooping a = bool_decide (ai_loop s = Some true) /\
  forall startFrame endFrame fps sr atempoFilters,
    head (audioFilters a startFrame endFrame fps sr atempoFilters) =
      if bool_decide (ai_loop s = Some true)
      then Some (Aloop (loopCount a startFrame endFrame fps))
      else head (atempoFilters ++
                 [Atrim (trimLeft a) (trimRight a startFrame endFrame fps)]).
Proof.
  intros (first & rest & tr & Hk & Hspec & ->)%getAssetPlacement_track Hfirst.
  rewrite (key_samples_first _ frames 0), Hk in Hfirst. injection Hfirst as <-.
  assert (Hn : needsLooping (finish tr) = bool_decide (ai_loop first.2 = Some true)).
  { destruct (finish_fields tr) as (_ & _ & _ & _ & _ & _ & Hl & _ & _ & _ & _ & Hds).
    cbn zeta in *. unfold needsLooping.
    rewrite Hl, Hds, (ts_flag _ _ _ Hspec), (ts_looping _ _ _ Hspec).
    destruct (decide (ai_loop first.2 = Some true)) as [Hloop|Hloop].
    - rewrite Hloop. rewrite !bool_decide_eq_true_2 by done. cbn [default].
      change (PInf =? zero)%num with false. cbn [andb].
      by change (PInf =? PInf)%num with true.
    - by rewrite !(bool_decide_eq_false_2 _ Hloop). }
  split; [exact Hn|]. intros startFrame endFrame fps sr atempoFilters.
  rewrite audioFilters_parts, Hn. case_bool_decide; [done|].
  cbn [app]. by destruct atempoFilters.
Qed.

(** The music of [wrapping_frames] loops. *)
Lemma getAssetPlacement_needsLooping_witness :
  let a := mkMediaAsset "music" "music.mp3" audio 0 2 3 one one (dec 138 10)
             PInf (Some true) None in
  let s := loopSample (dec 138 10) in
  needsLooping a = bool_decide (ai_loop s = Some true) /\
  forall startFrame endFrame fps sr atempoFilters,
    head (audioFilters a startFrame endFrame fps sr atempoFilters) =
      if bool_decide (ai_loop s = Some true)
      then Some (Aloop (loopCount a startFrame endFrame fps))
      else head (atempoFilters ++
                 [Atrim (trimLeft a) (trimRight a startFrame endFrame fps)]).
Proof.
  intros a s. apply (getAssetPlacement_needsLooping wrapping_frames a s).
  - apply (bool_decide_unpack (a ∈ getAssetPlacement wrapping_frames)).
    vm_compute. exact I.
  - by_compute.
Defined.

(** X18.  When the position of the last sample of a key is not before the
    position of its first sample, both finite, and the rate of the first
    sample is finite and positive, [durationInSeconds] of the span is the
    unbounded sentinel or a non-negative number. *)
Theorem getAssetPlacement_duration_nonneg (frames : list (list AssetInfo))
    (a : MediaAsset) (first : Z * AssetInfo) (rest : list (Z * AssetInfo))
    (t0 t1 p : Qc) :
  a ∈ getAssetPlacement frames ->
  key_samples (key a) 0 frames = first :: rest ->
  ai_currentTime first.2 = Fin t0 ->
  ai_currentTime (List.last rest first).2 = Fin t1 ->
  ai_playbackRate first.2 = Fin p ->
  (t0 <= t1)%Qc -> (0 < p)%Qc ->
  durationInSeconds a = PInf \/
  exists d, durationInSeconds a = Fin d /\ (0 <= d)%Qc.
Proof.
  intros (first' & rest' & tr & Hk & Hspec & ->)%getAssetPlacement_track Hk'.
  rewrite Hk in Hk'. injection Hk' as -> ->.
  intros Ht0 Ht1 Hp Hle Hpos.
  destruct (finish_fields tr) as (_ & _ & _ & _ & _ & _ & _ & _ & _ & _ & _ & Hds).
  cbn zeta in *. rewrite Hds. clear Hds.
  rewrite (ts_times _ _ _ Hspec), (ts_looping _ _ _ Hspec), (ts_rate _ _ _ Hspec).
  cbn [fst snd]. rewrite Ht0, Ht1, Hp.
  destruct (default false (ai_loop first.2)); [by left|].
  cbn [sub add neg div].
  rewrite bool_decide_eq_false_2 by (intros ->; by apply Qclt_not_eq in Hpos).
  destruct ((_ =? zero)%num && _); [left; reflexivity|].
  right. eexists. split; [reflexivity|].
  apply Qc_div_nonneg; [|exact Hpos]. by apply Qcle_minus_iff in Hle.
Qed.

(** The asset [A] of the scenario advances from 0 to 0.066 s at rate 1. *)
Lemma getAssetPlacement_duration_nonneg_witness :
  durationInSeconds scenario_asset = PInf \/
  exists d, durationInSeconds scenario_asset = Fin d /\ (0 <= d)%Qc.
Proof.
  apply (getAssetPlacement_duration_nonneg scenario_frames scenario_asset
           (0, sampleA zero one)
           [(1, sampleA (dec 33 1000) one); (2, sampleA (dec 66 1000) zero)]
           (Q2Qc (inject_Z 0)) (qc 66 1000) (Q2Qc (inject_Z 1))).
  - apply (bool_decide_unpack (scenario_asset ∈ getAssetPlacement scenario_frames)).
    vm_compute. exact I.
  - by_compute.
  - reflexivity.
  - reflexivity.
  - reflexivity.
  - by vm_compute.
  - by vm_compute.
Defined.
